(** * Reverse-mode gradient accumulation: [Grad] and [grad] (grad.py)

    A shallow embedding of [grad.py].  The accumulator [Grad] is a Python
    object mutated in place; it is modelled by explicit state passing, and
    exceptions by a result type that still carries the state reached when
    the exception left the call (a raise does not undo earlier writes).

    The modules [core] (evaluation modes, [wrap], the two sentinels) and
    [gof.graph] (graph queries) are imported by [grad.py] but are not part
    of it: the mode controller is modelled from the specification, and the
    value layer and the graph queries are taken as parameters. *)

From stdpp Require Import base option list gmap strings.

(* ===================================================================== *)
(** ** Exceptions and the state-and-exception monad *)
(* ===================================================================== *)

(** The exceptions that can leave the functions of [grad.py].
    [KeyError] is the specification's MissingGradient, the [ValueError]s of
    [Grad.add] are its MissingShapeAttribute and ShapeMismatch,
    [NotImplementedError] is its UnsupportedInMode. *)
Inductive exn :=
  | KeyError (k : positive)
  | ValueError (msg : string)
  | NameError (name : string)
  | NotImplementedError (msg : string)
  | ModeStackUnderflow
  | OpException (tag : nat).

Inductive result (A : Type) :=
  | Ok (a : A)
  | Raise (e : exn).
Arguments Ok {A} a.
Arguments Raise {A} e.

(** A computation over a mutable state [S]: the final state is returned on
    both outcomes. *)
Definition M (S A : Type) : Type := S → S * result A.

Definition ret {S A} (a : A) : M S A := λ s, (s, Ok a).

Definition raise {S A} (e : exn) : M S A := λ s, (s, Raise e).

Definition bind {S A B} (m : M S A) (f : A → M S B) : M S B :=
  λ s, match m s with
       | (s', Ok a) => f a s'
       | (s', Raise e) => (s', Raise e)
       end.

Definition get {S} : M S S := λ s, (s, Ok s).

Definition modify {S} (f : S → S) : M S unit := λ s, (f s, Ok tt).

Declare Scope py_scope.
Delimit Scope py_scope with py.
Notation "x <- m ;; k" := (bind m (λ x, k))
  (at level 20, m at level 99, k at level 200, only parsing) : py_scope.
Notation "m ;; k" := (bind m (λ _, k))
  (at level 100, k at level 200, only parsing) : py_scope.
Open Scope py_scope.

(** [try: body finally: final].  The [finally] block runs on both outcomes
    of the body; the outcome of the body is kept unless the block itself
    raises. *)
Definition try_finally {S A} (body : M S A) (final : M S unit) : M S A :=
  λ s, match body s with
       | (s1, r) =>
           match final s1 with
           | (s2, Ok _) => (s2, r)
           | (s2, Raise e) => (s2, Raise e)
           end
       end.

(** [for x in l: body(x)]. *)
Fixpoint for_each {S A} (l : list A) (body : A → M S unit) : M S unit :=
  match l with
  | [] => ret tt
  | x :: l' => body x ;; for_each l' body
  end.

(** Running a computation on one component of a pair of states. *)
Definition on_fst {S T A} (m : M S A) : M (S * T) A :=
  λ st, match m st.1 with (s', r) => ((s', st.2), r) end.

Definition on_snd {S T A} (m : M T A) : M (S * T) A :=
  λ st, match m st.2 with (t', r) => ((st.1, t'), r) end.

(** Running a computation on an object held in a local variable: the object
    is handed back with the result, and is lost with the frame when the
    computation raises. *)
Definition with_object {S T A} (obj : S) (m : M (S * T) A) : M T (S * A) :=
  λ t, match m (obj, t) with
       | ((obj', t'), Ok a) => (t', Ok (obj', a))
       | ((_, t'), Raise e) => (t', Raise e)
       end.

(* ===================================================================== *)
(** ** The evaluation-mode controller ([core], not part of grad.py) *)
(* ===================================================================== *)

Module core.

(** Modelled from the spec: the three evaluation modes ['eval'],
    ['build'] and ['build_eval'] of the missing module [core]. *)
Inductive Mode := eval | build | build_eval.

#[global] Instance Mode_eq_dec : EqDecision Mode.
Proof. solve_decision. Defined.

(** Modelled from the spec: [current_mode()] of the missing module [core],
    "returns the mode at the top of the stack".  The head of the list is
    the top of the stack. *)
Definition current_mode : M (list Mode) (option Mode) :=
  stack <- get ;; ret (head stack).

(** Modelled from the spec: [push(mode)] of the missing module [core],
    "pushes a new mode, becomes current until popped". *)
Definition push_mode (mode : Mode) : M (list Mode) unit :=
  modify (cons mode).

(** Modelled from the spec: [build_mode()] of the missing module [core],
    the "convenience entry" that pushes ['build']. *)
Definition build_mode : M (list Mode) unit := push_mode build.

(** Modelled from the spec: [build_eval_mode()] of the missing module
    [core], the "convenience entry" that pushes ['build_eval']. *)
Definition build_eval_mode : M (list Mode) unit := push_mode build_eval.

(** Modelled from the spec: [pop_mode()] of the missing module [core],
    "removes and discards the top mode, restoring the previous one; fails
    with ModeStackUnderflow if the stack is empty". *)
Definition pop_mode : M (list Mode) unit :=
  stack <- get ;;
  match stack with
  | [] => raise ModeStackUnderflow
  | _ :: rest => modify (λ _, rest)
  end.

End core.
Export core.

(* ===================================================================== *)
(** ** The value layer (external to grad.py) *)
(* ===================================================================== *)

(** What [r.data] can hold: the sentinel [core.UNCOMPUTED], an array with a
    [shape] attribute, or any other object (no [shape] attribute). *)
Inductive payload :=
  | UNCOMPUTED
  | ndarray (shape : list nat)
  | shapeless.

Definition is_UNCOMPUTED (d : payload) : bool :=
  match d with UNCOMPUTED => true | _ => false end.

(** [d.shape] when [hasattr(d, 'shape')]. *)
Definition shape (d : payload) : option (list nat) :=
  match d with ndarray s => Some s | _ => None end.

(** A gradient term handed to [Grad.add]: the sentinel [core.UNDEFINED] or
    a value node. *)
Inductive gradient (R : Type) :=
  | UNDEFINED
  | term (dr : R).
Arguments UNDEFINED {R}.
Arguments term {R} dr.

(** The interface grad.py needs from value nodes [R] and raw values [Raw]:
    [pyid r] is [id(r)], [data r] is [r.data], [radd a b] is the node built
    by [a + b], [wrap x] is [core.wrap(x)] and [one] is the literal [1.0]. *)
Class ValueLayer (R Raw : Type) := {
  pyid : R → positive;
  data : R → payload;
  radd : R → R → R;
  wrap : Raw → R;
  one : Raw;
}.

(** The names bound at module level in grad.py. *)
Definition module_names : list string :=
  ["gof"; "core"; "Grad"; "grad"; "unittest"; "numpy"; "compile"; "_testCase"].

(** Evaluation of a bare name inside a function whose local names are
    [locals]. *)
Definition name_lookup {S} (locals : list string) (name : string) : M S unit :=
  if decide (name ∈ locals ++ module_names) then ret tt
  else raise (NameError name).

(* ===================================================================== *)
(** ** class Grad *)
(* ===================================================================== *)

(** The attributes [self.map] (keyed by [id]) and [self.outputs]. *)
Record Grad (R : Type) := mkGrad {
  map : gmap positive R;
  outputs : list R;
}.
Arguments mkGrad {R} map outputs.
Arguments map {R} g.
Arguments outputs {R} g.

(** A [Grad] instance before [__init__] has run. *)
Definition blank {R} : Grad R := mkGrad ∅ [].

Section GradMethods.
Context {R Raw : Type} `{!ValueLayer R Raw}.

(** [id(item) in self.map] *)
Definition __contains__ (item : R) : M (Grad R) bool :=
  self <- get ;; ret (bool_decide (is_Some (map self !! pyid item))).

(** [self.map[id(item)]] *)
Definition __getitem__ (item : R) : M (Grad R) R :=
  self <- get ;;
  match map self !! pyid item with
  | Some val => ret val
  | None => raise (KeyError (pyid item))
  end.

(** [self.map[id(item)] = val] *)
Definition __setitem__ (item : R) (val : R) : M (Grad R) unit :=
  modify (λ self, mkGrad (<[pyid item := val]> (map self)) (outputs self)).

Definition add (r : R) (dr : gradient R) : M (Grad R) unit :=
  match dr with
  | UNDEFINED => ret tt
  | term dr =>
      (if is_UNCOMPUTED (data r) || is_UNCOMPUTED (data dr) then ret tt
       else
         match shape (data r) with
         | None => raise (ValueError "Grad::add r lacks shape: type=")
         | Some r_shape =>
             match shape (data dr) with
             | None => raise (ValueError "Grad::add dr lacks shape: type=")
             | Some dr_shape =>
                 if decide (r_shape ≠ dr_shape) then
                   (* the argument tuple of the exception is built first:
                      [v.data.shape], then [dv.datashape] *)
                   name_lookup ["self"; "r"; "dr"] "v" ;;
                   name_lookup ["self"; "r"; "dr"] "dv" ;;
                   raise (ValueError "Grad::add r, dr shape mismatch")
                 else ret tt
             end
         end) ;;
      present <- __contains__ r ;;
      if present then
        old <- __getitem__ r ;; __setitem__ r (radd old dr)
      else
        __setitem__ r dr
  end.

Definition add_output (r : R) (dr : gradient R) : M (Grad R) unit :=
  add r dr ;;
  modify (λ self, mkGrad (map self) (outputs self ++ [r])).

(** [dct] lists the items of the dictionary in iteration order. *)
Definition __init__ (dct : list (R * gradient R)) : M (Grad R) unit :=
  modify (λ _, mkGrad ∅ []) ;;
  for_each dct (λ kv, add_output kv.1 kv.2).

End GradMethods.

(* ===================================================================== *)
(** ** Operations and the graph queries (external to grad.py) *)
(* ===================================================================== *)

(** What [op.update_gradient(g)] does with the accumulator [g] it is given:
    it reads entries ([g[r]], [r in g]) and deposits terms ([g.add(r, dr)]),
    it may ask [core.current_mode()] (as the arithmetic that builds its
    terms does), and it may raise. *)
Inductive prog (R : Type) :=
  | p_return
  | p_raise (e : exn)
  | p_getitem (r : R) (k : R → prog R)
  | p_contains (r : R) (k : bool → prog R)
  | p_add (r : R) (dr : gradient R) (k : prog R)
  | p_current_mode (k : option Mode → prog R).
Arguments p_return {R}.
Arguments p_raise {R} e.
Arguments p_getitem {R} r k.
Arguments p_contains {R} r k.
Arguments p_add {R} r dr k.
Arguments p_current_mode {R} k.

(** An operation node: its declared inputs and outputs and its
    gradient-contribution method. *)
Record Op (R : Type) := mkOp {
  op_inputs : list R;
  op_outputs : list R;
  update_gradient : prog R;
}.
Arguments mkOp {R} op_inputs op_outputs update_gradient.
Arguments op_inputs {R} o.
Arguments op_outputs {R} o.
Arguments update_gradient {R} o.

(** The two queries of [gof.graph] used by [bprop]. *)
Record gof_graph (R : Type) := mkGraph {
  inputs : list R → list R;
  io_toposort : list R → list R → list (Op R);
}.
Arguments mkGraph {R} inputs io_toposort.
Arguments inputs {R} g outputs.
Arguments io_toposort {R} g inputs outputs.

(** Calls that cross the boundary between grad.py and its collaborators.
    They are recorded in [history], which no definition reads. *)
Inductive event (R : Type) :=
  | called_update_gradient (op : Op R)
  | called_add (r : R) (dr : gradient R)
  | called_compute (r : R).
Arguments called_update_gradient {R} op.
Arguments called_add {R} r dr.
Arguments called_compute {R} r.

(** The process-wide state around an accumulator: the mode stack of [core]
    and the record of boundary calls, oldest first. *)
Record World (R : Type) := mkWorld {
  mode_stack : list Mode;
  history : list (event R);
}.
Arguments mkWorld {R} mode_stack history.
Arguments mode_stack {R} w.
Arguments history {R} w.

Section Backprop.
Context {R Raw : Type} `{!ValueLayer R Raw}.

(** A computation of [core] on the mode stack of the world. *)
Definition on_modes {A} (m : M (list Mode) A) : M (World R) A :=
  λ w, match m (mode_stack w) with
       | (stack', r) => (mkWorld stack' (history w), r)
       end.

Definition record (ev : event R) : M (World R) unit :=
  modify (λ w, mkWorld (mode_stack w) (history w ++ [ev])).

(** The body of an [update_gradient] method running on [self]. *)
Fixpoint call (p : prog R) : M (Grad R * World R) unit :=
  match p with
  | p_return => ret tt
  | p_raise e => raise e
  | p_getitem r k => val <- on_fst (__getitem__ r) ;; call (k val)
  | p_contains r k => b <- on_fst (__contains__ r) ;; call (k b)
  | p_add r dr k =>
      on_snd (record (called_add r dr)) ;;
      on_fst (add r dr) ;;
      call k
  | p_current_mode k => mode <- on_snd (on_modes current_mode) ;; call (k mode)
  end.

Definition bprop (G : gof_graph R) : M (Grad R * World R) unit :=
  on_snd (on_modes build_mode) ;;
  try_finally
    (self <- on_fst get ;;
     let outputs := outputs self in
     let inputs := inputs G outputs in
     for_each (reverse (io_toposort G inputs outputs))
       (λ op,
          on_snd (record (called_update_gradient op)) ;;
          call (update_gradient op)))
    (on_snd (on_modes pop_mode)).

Definition __call__ (item : R) : M (Grad R * World R) R :=
  rval <- on_fst (__getitem__ item) ;;
  mode <- on_snd (on_modes current_mode) ;;
  (if decide (mode = Some build_eval) then
     on_snd (record (called_compute rval))
   else ret tt) ;;
  ret rval.

(** What [grad] returns: the accumulator or one gradient expression. *)
Inductive grad_return :=
  | returned_Grad (rval : Grad R)
  | returned_expr (rval : R).

(** [param = None] is the omitted (default) parameter. *)
Definition grad (G : gof_graph R) (cost : R) (param : option R)
    (cost_grad : Raw) : M (World R) grad_return :=
  mode <- on_modes current_mode ;;
  if decide (mode = Some eval) then
    raise (NotImplementedError
             "Gradient-related functions are not available in eval mode")
  else
    new <- with_object blank
             (on_fst (__init__ [(cost, term (wrap cost_grad))])) ;;
    ran <- with_object new.1 (bprop G) ;;
    let rval := ran.1 in
    match param with
    | None => ret (returned_Grad rval)
    | Some param =>
        res <- with_object rval (__call__ param) ;;
        ret (returned_expr res.2)
    end.

(** The default value of [cost_grad]. *)
Definition default_cost_grad : Raw := one.

End Backprop.

(* ===================================================================== *)
(** ** Properties used to state the claims *)
(* ===================================================================== *)

Section Contracts.
Context {R Raw : Type} `{!ValueLayer R Raw}.

(** The shape rule of [Grad.add] is passed: one of the payloads is
    [UNCOMPUTED], or both have a shape and the shapes are equal. *)
Definition passes_shape_rules (r dr : R) : bool :=
  is_UNCOMPUTED (data r) || is_UNCOMPUTED (data dr) ||
  match shape (data r), shape (data dr) with
  | Some r_shape, Some dr_shape => bool_decide (r_shape = dr_shape)
  | _, _ => false
  end.

(** Successive contributions [add(r, g)] for [g] in [gs]. *)
Definition contribute (r : R) (gs : list R) : M (Grad R) unit :=
  for_each gs (λ g, add r (term g)).

(** The entry that [k] successive contributions leave, starting from the
    entry [old]: the first contribution initialises, later ones are added
    on the right with [+]. *)
Definition accumulated (old : option R) (gs : list R) : option R :=
  foldl (λ acc g, Some (match acc with Some a => radd a g | None => g end))
        old gs.

(** [p] produces a value that [c] consumes. *)
Definition feeds (p c : Op R) : Prop :=
  Exists (λ k, k ∈ pyid <$> op_inputs c) (pyid <$> op_outputs p).

#[global] Instance feeds_dec p c : Decision (feeds p c).
Proof. unfold feeds. apply _. Defined.



(** Every [g.add(r, dr)] the program can perform has [id(r)] in [ks]. *)
Fixpoint deposits_only (ks : list positive) (p : prog R) : Prop :=
  match p with
  | p_return => True
  | p_raise _ => True
  | p_getitem _ k => ∀ val, deposits_only ks (k val)
  | p_contains _ k => ∀ b, deposits_only ks (k b)
  | p_add r _ k => pyid r ∈ ks ∧ deposits_only ks k
  | p_current_mode k => ∀ mode, deposits_only ks (k mode)
  end.

(** An operation deposits gradient terms for its own inputs only. *)
Definition contributes_to_inputs (op : Op R) : Prop :=
  deposits_only (pyid <$> op_inputs op) (update_gradient op).

(** The body of the loop of [bprop]. *)
Definition visit (op : Op R) : M (Grad R * World R) unit :=
  on_snd (record (called_update_gradient op)) ;;
  call (update_gradient op).


(** [ev] is a call [g.add(r, dr)] with [id(r)] in [ks]. *)
Definition add_into (ks : list positive) (ev : event R) : Prop :=
  match ev with
  | called_add r _ => pyid r ∈ ks
  | _ => False
  end.

(** The shape of the history a traversal of [ops] leaves: for each
    operation visited, the call of its method followed by the deposits it
    makes into its inputs; the traversal may stop early (on a raise). *)
Inductive visits : list (Op R) → list (event R) → Prop :=
  | visits_stop ops : visits ops []
  | visits_step op ops adds t :
      Forall (add_into (pyid <$> op_inputs op)) adds →
      visits ops t →
      visits (op :: ops) (called_update_gradient op :: adds ++ t).

End Contracts.

(* ===================================================================== *)
(** ** A concrete value layer and a diamond-shaped graph *)
(* ===================================================================== *)

(** Symbolic value nodes: a leaf with its identity, payload and numeric
    value, or the node built by [+]. *)
Inductive expr :=
  | leaf (i : positive) (d : payload) (v : Z)
  | plus (a b : expr).

Fixpoint expr_id (e : expr) : positive :=
  match e with
  | leaf i _ _ => i
  | plus a b => ((expr_id a + expr_id b)~1)%positive
  end.

Definition expr_data (e : expr) : payload :=
  match e with
  | leaf _ d _ => d
  | plus _ _ => UNCOMPUTED
  end.

Fixpoint expr_value (e : expr) : Z :=
  match e with
  | leaf _ _ v => v
  | plus a b => (expr_value a + expr_value b)%Z
  end.

(** A value layer for the examples.  Identities are not fresh here:
    [wrap] gives every wrapped value the identity 1 and a sum takes an
    identity computed from its terms; the examples key their accumulators
    by leaves with identities of their own only. *)
#[global] Instance expr_layer : ValueLayer expr Z := {|
  pyid := expr_id;
  data := expr_data;
  radd := plus;
  wrap := λ v, leaf 1 (ndarray []) v;
  one := 1%Z;
|}.

Module diamond.

(** [a = f(x)], [b = h(x)], [y = a * b] with a scalar [y]. *)
Definition x : expr := leaf 2 (ndarray []) 5.
Definition a : expr := leaf 3 UNCOMPUTED 0.
Definition b : expr := leaf 4 UNCOMPUTED 0.
Definition y : expr := leaf 5 (ndarray []) 7.

Definition op_a : Op expr :=
  mkOp [x] [a] (p_getitem a (λ ga, p_add x (term ga) p_return)).

Definition op_b : Op expr :=
  mkOp [x] [b] (p_getitem b (λ gb, p_add x (term gb) p_return)).

Definition op_y : Op expr :=
  mkOp [a; b] [y]
    (p_getitem y (λ gy, p_add a (term gy) (p_add b (term gy) p_return))).

(** An operation whose gradient method deposits one term and then
    raises. *)
Definition op_y_raising : Op expr :=
  mkOp [a; b] [y]
    (p_getitem y (λ gy, p_add a (term gy) (p_raise (OpException 0)))).

Definition G : gof_graph expr :=
  mkGraph (λ _, [x]) (λ _ _, [op_a; op_b; op_y]).

Definition G_raising : gof_graph expr :=
  mkGraph (λ _, [x]) (λ _ _, [op_a; op_b; op_y_raising]).

(** An operation whose gradient method asks for the mode first: under
    ['build'] it deposits one term and then raises [OpException 0]; under
    any other mode it raises [OpException 1] at once. *)
Definition op_y_probing : Op expr :=
  mkOp [a; b] [y]
    (p_current_mode (λ mode,
       if decide (mode = Some build) then
         p_getitem y (λ gy, p_add a (term gy) (p_raise (OpException 0)))
       else p_raise (OpException 1))).

Definition G_probing : gof_graph expr :=
  mkGraph (λ _, [x]) (λ _ _, [op_a; op_b; op_y_probing]).

(** The accumulator of [grad(y)] before the traversal. *)
Definition seeded : Grad expr := mkGrad {[pyid y := wrap one]} [y].

Definition w_build : World expr := mkWorld [build] [].
Definition w_build_eval : World expr := mkWorld [build_eval] [].
Definition w_eval : World expr := mkWorld [eval; build_eval] [].

End diamond.

(* ===================================================================== *)
(** ** Further properties of the accumulator and of the traversal *)
(* ===================================================================== *)

Section MoreContracts.
Context {R Raw : Type} `{!ValueLayer R Raw}.

(** An item [(r, dr)] of the dictionary given to [Grad(...)] whose term
    [add] accepts: [dr] is [UNDEFINED] or passes the shape rule. *)
Definition seed_accepted (kv : R * gradient R) : Prop :=
  match kv.2 with
  | UNDEFINED => True
  | term dr => passes_shape_rules kv.1 dr = true
  end.

(** The entry one term leaves for a node that had none. *)
Definition seed_entry (d : gradient R) : option R :=
  match d with
  | UNDEFINED => None
  | term dr => Some dr
  end.

(** The operations whose [update_gradient] was called, in the order of the
    calls. *)
Definition update_gradient_calls (t : list (event R)) : list (Op R) :=
  omap (λ ev, match ev with
              | called_update_gradient op => Some op
              | _ => None
              end) t.

(** The calls of [compute()] recorded after a lookup with outcome [res]
    under the mode [mode]. *)
Definition compute_calls (mode : option Mode) (res : result R)
    : list (event R) :=
  match res with
  | Ok rval =>
      if decide (mode = Some build_eval) then [called_compute rval] else []
  | Raise _ => []
  end.

End MoreContracts.

Module leaf_cost.

(** A cost that no operation produces, and other nodes around it. *)
Definition c : expr := leaf 7 (ndarray []) 3.
Definition other : expr := leaf 8 UNCOMPUTED 0.
Definition matrix : expr := leaf 9 (ndarray [3; 3]) 0.
Definition raw_object : expr := leaf 10 shapeless 0.

Definition G : gof_graph expr := mkGraph (λ outputs, outputs) (λ _ _, []).

End leaf_cost.

(* ===================================================================== *)
(** ** Sequencing lemmas *)
(* ===================================================================== *)

Lemma bind_Ok {S A B} (m : M S A) (f : A → M S B) s s' a :
  m s = (s', Ok a) → bind m f s = f a s'.
Proof. unfold bind. by intros ->. Qed.

Lemma bind_Raise {S A B} (m : M S A) (f : A → M S B) s s' e :
  m s = (s', Raise e) → bind m f s = (s', Raise e).
Proof. unfold bind. by intros ->. Qed.

Lemma for_each_app {S A} (l1 l2 : list A) (body : A → M S unit) s :
  for_each (l1 ++ l2) body s = bind (for_each l1 body) (λ _, for_each l2 body) s.
Proof.
  revert s. induction l1 as [|x l1 IH]; intros s; [done|].
  cbn [app for_each]. unfold bind.
  destruct (body x s) as [s1 [[]|e]]; [|done].
  rewrite IH. reflexivity.
Qed.

(* ===================================================================== *)
(** ** Lemmas on the methods of [Grad] *)
(* ===================================================================== *)

Section GradFacts.
Context {R Raw : Type} `{!ValueLayer R Raw}.
Implicit Types (r dr item : R) (self : Grad R).

Lemma contains_spec item self :
  __contains__ item self = (self, Ok (bool_decide (is_Some (map self !! pyid item)))).
Proof. reflexivity. Qed.

Lemma getitem_Some item self val :
  map self !! pyid item = Some val → __getitem__ item self = (self, Ok val).
Proof. intros H. unfold __getitem__, bind, get. cbn. by rewrite H. Qed.

Lemma getitem_None item self :
  map self !! pyid item = None →
  __getitem__ item self = (self, Raise (KeyError (pyid item))).
Proof. intros H. unfold __getitem__, bind, get. cbn. by rewrite H. Qed.

(** The last statement of [add]: initialise an absent entry, add to a
    present one. *)
Lemma add_store r dr self :
  (present <- __contains__ r ;;
   if present then old <- __getitem__ r ;; __setitem__ r (radd old dr)
   else __setitem__ r dr) self =
    (mkGrad (<[pyid r := match map self !! pyid r with
                         | Some old => radd old dr
                         | None => dr
                         end]> (map self)) (outputs self), Ok tt).
Proof.
  unfold bind at 1. rewrite contains_spec.
  destruct (map self !! pyid r) as [old|] eqn:Hl.
  - rewrite bool_decide_true by eauto.
    unfold bind. by rewrite (getitem_Some _ _ _ Hl).
  - rewrite bool_decide_false by (intros [? ?]; congruence). done.
Qed.

(** A contribution that passes the shape rule is stored. *)
Lemma add_term_ok r dr self :
  passes_shape_rules r dr = true →
  add r (term dr) self =
    (mkGrad (<[pyid r := match map self !! pyid r with
                         | Some old => radd old dr
                         | None => dr
                         end]> (map self)) (outputs self), Ok tt).
Proof.
  unfold passes_shape_rules, add. intros Hs.
  destruct (is_UNCOMPUTED (data r) || is_UNCOMPUTED (data dr)) eqn:Hu.
  - unfold bind at 1. cbn. apply add_store.
  - cbn in Hs.
    destruct (shape (data r)) as [rs|]; [|done].
    destruct (shape (data dr)) as [drs|]; [|done].
    apply bool_decide_eq_true in Hs as ->.
    unfold bind at 1. cbn. destruct (decide (drs ≠ drs)) as [?|_]; [done|].
    cbn. apply add_store.
Qed.

(** When both payloads are computed arrays of different shapes, the
    [raise] statement of [add] fails while its argument is evaluated. *)
Lemma add_shape_mismatch r dr self r_shape dr_shape :
  data r = ndarray r_shape → data dr = ndarray dr_shape →
  r_shape ≠ dr_shape →
  add r (term dr) self = (self, Raise (NameError "v")).
Proof.
  intros Hr Hdr Hne. unfold add. rewrite Hr, Hdr. cbn.
  unfold bind at 1. cbn. destruct (decide (r_shape ≠ dr_shape)); [|done].
  reflexivity.
Qed.

(** The shape check is skipped as soon as one payload is [UNCOMPUTED]. *)
Lemma add_UNCOMPUTED_skips_check r dr self :
  data r = UNCOMPUTED ∨ data dr = UNCOMPUTED →
  add r (term dr) self =
    (mkGrad (<[pyid r := match map self !! pyid r with
                         | Some old => radd old dr
                         | None => dr
                         end]> (map self)) (outputs self), Ok tt).
Proof.
  intros Hu. apply add_term_ok. unfold passes_shape_rules.
  destruct Hu as [-> | ->]; cbn; [done|].
  by rewrite orb_true_r.
Qed.

End GradFacts.

(* ===================================================================== *)
(** ** Accumulation: sentinel, lookup, seeding without a term *)
(* ===================================================================== *)

Section AddClaims.
Context {R Raw : Type} `{!ValueLayer R Raw}.
Implicit Types (r dr n item : R) (self : Grad R).

(** C8.  Contributing [UNDEFINED] with [add(r, UNDEFINED)] leaves the
    accumulator exactly as it was, whatever [r] is and whether or not
    [r] has an entry: the mapping (and the list of outputs) is unchanged,
    no shape check is made and nothing is raised. *)
Theorem add_UNDEFINED_is_noop r self :
  add r UNDEFINED self = (self, Ok tt).
Proof. reflexivity. Qed.

(** C9.  Looking up a node without an entry raises [KeyError] (the
    MissingGradient error) to the caller and leaves the accumulator
    untouched; looking up a node with an entry returns that entry. *)
Theorem getitem_missing_or_entry item self :
  (map self !! pyid item = None →
     __getitem__ item self = (self, Raise (KeyError (pyid item)))) ∧
  (∀ val, map self !! pyid item = Some val →
     __getitem__ item self = (self, Ok val)).
Proof. split; [apply getitem_None | intros val; apply getitem_Some]. Qed.

(** C10.  [add_output(n, UNDEFINED)] appends [n] to the outputs and
    creates no entry: when [n] had no entry before the call, [n] is
    afterwards a registered output whose lookup raises [KeyError]. *)
Theorem add_output_UNDEFINED_seeds_without_entry n self :
  map self !! pyid n = None →
  ∃ self',
    add_output n UNDEFINED self = (self', Ok tt) ∧
    outputs self' = outputs self ++ [n] ∧
    n ∈ outputs self' ∧
    map self' = map self ∧
    __getitem__ n self' = (self', Raise (KeyError (pyid n))).
Proof.
  intros Hn. exists (mkGrad (map self) (outputs self ++ [n])).
  split; [reflexivity|]. split; [done|]. split; [set_solver|].
  split; [done|]. by apply (getitem_None n (mkGrad _ _)).
Qed.

End AddClaims.

(** C4.  Two computed payloads of shapes (2,3) and (3,2): the claim expects
    a shape-mismatch [ValueError] carrying both shapes; [add] raises
    [NameError] for the name [v] instead, because the arguments of the
    [ValueError] are evaluated first. *)
Theorem add_shape_mismatch_raises_NameError :
  add (leaf 2 (ndarray [2; 3]) 0) (term (leaf 3 (ndarray [3; 2]) 0)) blank
  = (blank, Raise (NameError "v")).
Proof. by eapply add_shape_mismatch. Qed.

Lemma getitem_missing_or_entry_witness :
  __getitem__ diamond.x (blank : Grad expr)
    = (blank, Raise (KeyError (pyid diamond.x))) ∧
  __getitem__ diamond.x (mkGrad {[2%positive := diamond.y]} [])
    = (mkGrad {[2%positive := diamond.y]} [], Ok diamond.y).
Proof.
  split.
  - apply (proj1 (getitem_missing_or_entry diamond.x blank)). reflexivity.
  - apply (proj2 (getitem_missing_or_entry diamond.x
                    (mkGrad {[2%positive := diamond.y]} []))).
    reflexivity.
Defined.

Lemma add_output_UNDEFINED_seeds_without_entry_witness :
  ∃ self',
    add_output diamond.y UNDEFINED (blank : Grad expr) = (self', Ok tt) ∧
    outputs self' = outputs blank ++ [diamond.y] ∧
    diamond.y ∈ outputs self' ∧
    map self' = map blank ∧
    __getitem__ diamond.y self' = (self', Raise (KeyError (pyid diamond.y))).
Proof.
  apply (add_output_UNDEFINED_seeds_without_entry diamond.y blank).
  reflexivity.
Defined.

(* ===================================================================== *)
(** ** Additivity of accumulation *)
(* ===================================================================== *)

Section Additivity.
Context {R Raw : Type} `{!ValueLayer R Raw}.
Implicit Types (r : R) (gs : list R) (self : Grad R).

Lemma contribute_ok r gs : ∀ self,
  Forall (λ g, passes_shape_rules r g = true) gs →
  ∃ self',
    contribute r gs self = (self', Ok tt) ∧
    map self' !! pyid r = accumulated (map self !! pyid r) gs ∧
    (∀ k, k ≠ pyid r → map self' !! k = map self !! k) ∧
    outputs self' = outputs self.
Proof.
  induction gs as [|g gs IH]; intros self Hall.
  - by exists self.
  - inversion_clear Hall as [|?? Hg Hgs].
    destruct (IH (mkGrad (<[pyid r := match map self !! pyid r with
                                      | Some old => radd old g
                                      | None => g
                                      end]> (map self)) (outputs self)) Hgs)
      as (self' & Hrun & Hentry & Hframe & Hout).
    exists self'. unfold contribute. cbn [for_each].
    rewrite (bind_Ok _ _ _ _ _ (add_term_ok _ _ _ Hg)).
    split; [exact Hrun|]. split; [|split].
    + rewrite Hentry. cbn. by rewrite lookup_insert_eq.
    + intros k Hk. rewrite (Hframe k Hk). cbn. by rewrite lookup_insert_ne.
    + done.
Qed.

Lemma accumulated_from_None g gs :
  accumulated None (g :: gs) = Some (foldl radd g gs).
Proof.
  unfold accumulated. cbn. generalize g. clear g.
  induction gs as [|g' gs IH]; intros g; [done|]. cbn. apply IH.
Qed.

Context {V : Type} (vadd : V → V → V).
Context `{!Comm (=) vadd} `{!Assoc (=) vadd}.
Context (value : R → V).
Hypothesis value_radd : ∀ a b, value (radd a b) = vadd (value a) (value b).

Lemma accumulated_value_permutation gs gs' : gs ≡ₚ gs' →
  ∀ old old', value <$> old = value <$> old' →
  value <$> accumulated old gs = value <$> accumulated old' gs'.
Proof.
  unfold accumulated.
  induction 1 as [|g gs gs' _ IH|g1 g2 gs|gs1 gs2 gs3 _ IH1 _ IH2];
    intros old old' Hold.
  - done.
  - cbn. apply IH. cbn. f_equal.
    destruct old, old'; simplify_eq/=; rewrite ?value_radd; congruence.
  - cbn. generalize gs. clear gs. intros gs.
    assert (∀ o o' : option R, value <$> o = value <$> o' →
              value <$> foldl (λ acc g, Some (match acc with
                                              | Some a => radd a g
                                              | None => g end)) o gs =
              value <$> foldl (λ acc g, Some (match acc with
                                              | Some a => radd a g
                                              | None => g end)) o' gs) as Hcong.
    { induction gs as [|g gs IHgs]; intros o o' Ho; [done|].
      cbn. apply IHgs. cbn. f_equal.
      destruct o, o'; simplify_eq/=; rewrite ?value_radd; congruence. }
    apply Hcong. cbn. f_equal.
    destruct old, old'; simplify_eq/=; rewrite ?value_radd.
    + rewrite <-!(assoc_L vadd). f_equal; [congruence|]. apply (comm_L vadd).
    + apply (comm_L vadd).
  - etrans; [apply IH1, Hold|]. by apply IH2.
Qed.

(** C2.  [k] successive contributions [g1..gk] to [r], none [UNDEFINED]
    and each passing the shape rule, all succeed; they leave the other
    entries and the outputs alone, and the entry of [r] is the left-nested
    sum of the old entry (if any) and [g1..gk]: with no old entry it is
    [g1 + g2 + ... + gk], the first contribution initialising it.  Under
    any interpretation of [+] as a commutative and associative operation,
    the value of the entry does not depend on the order of the
    contributions. *)
Theorem add_is_additive r gs gs' self :
  Forall (λ g, passes_shape_rules r g = true) gs →
  gs ≡ₚ gs' →
  ∃ self1 self2,
    contribute r gs self = (self1, Ok tt) ∧
    contribute r gs' self = (self2, Ok tt) ∧
    map self1 !! pyid r = accumulated (map self !! pyid r) gs ∧
    (∀ g1 rest, map self !! pyid r = None → gs = g1 :: rest →
       map self1 !! pyid r = Some (foldl radd g1 rest)) ∧
    (∀ k, k ≠ pyid r → map self1 !! k = map self !! k) ∧
    outputs self1 = outputs self ∧
    value <$> (map self2 !! pyid r) = value <$> (map self1 !! pyid r).
Proof.
  intros Hall Hperm.
  assert (Forall (λ g, passes_shape_rules r g = true) gs') as Hall'
    by (by rewrite <-Hperm).
  destruct (contribute_ok r gs self Hall) as (self1 & H1 & He1 & Hf1 & Ho1).
  destruct (contribute_ok r gs' self Hall') as (self2 & H2 & He2 & _ & _).
  exists self1, self2. repeat split; try done.
  - intros g1 rest Hnone ->. rewrite He1, Hnone.
    apply accumulated_from_None.
  - rewrite He1, He2. symmetry. by apply accumulated_value_permutation.
Qed.

End Additivity.

Lemma expr_value_radd (a b : expr) :
  expr_value (radd a b) = (expr_value a + expr_value b)%Z.
Proof. reflexivity. Qed.

Lemma add_is_additive_witness :
  let r := diamond.x in
  let g1 := leaf 10 (ndarray []) 1 in
  let g2 := leaf 11 UNCOMPUTED 20 in
  let g3 := leaf 12 (ndarray []) 300 in
  ∃ self1 self2,
    contribute r [g1; g2; g3] blank = (self1, Ok tt) ∧
    contribute r [g3; g1; g2] blank = (self2, Ok tt) ∧
    map self1 !! pyid r = accumulated (map (@blank expr) !! pyid r) [g1; g2; g3] ∧
    (∀ h1 rest, map (@blank expr) !! pyid r = None → [g1; g2; g3] = h1 :: rest →
       map self1 !! pyid r = Some (foldl radd h1 rest)) ∧
    (∀ k, k ≠ pyid r → map self1 !! k = map (@blank expr) !! k) ∧
    outputs self1 = outputs (@blank expr) ∧
    expr_value <$> (map self2 !! pyid r) = expr_value <$> (map self1 !! pyid r).
Proof.
  intros r g1 g2 g3.
  apply (add_is_additive Z.add expr_value expr_value_radd r
           [g1; g2; g3] [g3; g1; g2] blank).
  - repeat constructor.
  - change [g3; g1; g2] with ([g3] ++ [g1; g2]).
    change [g1; g2; g3] with ([g1; g2] ++ [g3]).
    apply Permutation_app_comm.
Defined.

(* ===================================================================== *)
(** ** The backward traversal *)
(* ===================================================================== *)

Section BackpropFacts.
Context {R Raw : Type} `{!ValueLayer R Raw}.
Implicit Types (r dr item : R) (self g : Grad R) (w : World R).
Implicit Types (op c : Op R) (ops order : list (Op R)) (t : list (event R)).

Lemma on_modes_current_mode w :
  on_modes current_mode w = (w, Ok (head (mode_stack w))).
Proof. by destruct w. Qed.

Lemma record_spec ev g w :
  on_snd (record ev) (g, w)
  = ((g, mkWorld (mode_stack w) (history w ++ [ev])), Ok tt).
Proof. reflexivity. Qed.

Lemma world_eta w : mkWorld (mode_stack w) (history w) = w.
Proof. by destruct w. Qed.

Lemma current_mode_spec g w :
  on_snd (on_modes current_mode) (g, w) = ((g, w), Ok (head (mode_stack w))).
Proof. unfold on_snd. cbn [fst snd]. by rewrite on_modes_current_mode. Qed.

(** [add] never touches the outputs, and only the entry of its target. *)
Lemma add_frame r d g :
  outputs (add r d g).1 = outputs g ∧
  ∀ k, k ≠ pyid r → map (add r d g).1 !! k = map g !! k.
Proof.
  destruct d as [|dr]; [done|].
  unfold add.
  set (check := if is_UNCOMPUTED (data r) || is_UNCOMPUTED (data dr)
                then _ else _).
  assert (check g = (g, Ok tt) ∨ ∃ e, check g = (g, Raise e)) as [Hc|[e Hc]].
  { unfold check.
    destruct (is_UNCOMPUTED (data r) || is_UNCOMPUTED (data dr)); [by left|].
    destruct (shape (data r)); [|right; by eexists].
    destruct (shape (data dr)); [|right; by eexists].
    destruct (decide (_ ≠ _)); [right; by eexists | by left]. }
  - rewrite (bind_Ok _ _ _ _ _ Hc), add_store. cbn.
    split; [done|]. intros k Hk. by rewrite lookup_insert_ne.
  - by rewrite (bind_Raise _ _ _ _ _ Hc).
Qed.

(** The effect of one gradient method that deposits into [ks] only. *)
Lemma call_effect ks (p : prog R) : deposits_only ks p → ∀ g w,
  ∃ g' adds res,
    call p (g, w) = ((g', mkWorld (mode_stack w) (history w ++ adds)), res) ∧
    Forall (add_into ks) adds ∧
    outputs g' = outputs g ∧
    ∀ k, k ∉ ks → map g' !! k = map g !! k.
Proof.
  induction p as [|e|r k IH|r k IH|r d k IH|k IH]; intros Hp g w; cbn in Hp.
  - exists g, [], (Ok tt). rewrite app_nil_r, world_eta. by repeat split.
  - exists g, [], (Raise e). rewrite app_nil_r, world_eta. by repeat split.
  - cbn [call]. unfold bind, on_fst, __getitem__, get. cbn.
    destruct (map g !! pyid r) as [val|]; cbn.
    + apply IH, Hp.
    + exists g, [], (Raise (KeyError (pyid r))).
      rewrite app_nil_r, world_eta. by repeat split.
  - cbn [call]. unfold bind, on_fst, __contains__, get. cbn. apply IH, Hp.
  - destruct Hp as [Hr Hp]. cbn [call].
    rewrite (bind_Ok _ _ _ _ _ (record_spec _ _ _)).
    destruct (add_frame r d g) as [Hout Hframe].
    unfold bind at 1, on_fst at 1. cbn [fst snd].
    destruct (add r d g) as [g1 [[]|e]] eqn:Hadd; cbn in Hout, Hframe.
    + destruct (IH Hp g1 (mkWorld (mode_stack w) (history w ++ [called_add r d])))
        as (g' & adds & res & Hrun & Hadds & Hout' & Hframe').
      exists g', (called_add r d :: adds), res. cbn in Hrun.
      rewrite <-app_assoc in Hrun. split; [exact Hrun|].
      split; [by constructor|]. split; [congruence|].
      intros k' Hk'. rewrite Hframe' by done. apply Hframe. set_solver.
    + exists g1, [called_add r d], (Raise e). split; [done|].
      split; [by repeat constructor|]. split; [done|].
      intros k' Hk'. apply Hframe. set_solver.
  - cbn [call]. rewrite (bind_Ok _ _ _ _ _ (current_mode_spec _ _)).
    apply IH, Hp.
Qed.

Lemma visit_effect op : contributes_to_inputs op → ∀ g w,
  ∃ g' adds res,
    visit op (g, w)
    = ((g', mkWorld (mode_stack w)
              (history w ++ called_update_gradient op :: adds)), res) ∧
    Forall (add_into (pyid <$> op_inputs op)) adds ∧
    outputs g' = outputs g ∧
    ∀ k, k ∉ pyid <$> op_inputs op → map g' !! k = map g !! k.
Proof.
  intros Hop g w. unfold visit.
  rewrite (bind_Ok _ _ _ _ _ (record_spec _ _ _)).
  destruct (call_effect _ _ Hop g
              (mkWorld (mode_stack w) (history w ++ [called_update_gradient op])))
    as (g' & adds & res & Hrun & Hadds & Hout & Hframe).
  exists g', adds, res. cbn in Hrun. rewrite <-app_assoc in Hrun. done.
Qed.

(** The effect of the whole loop. *)
Lemma traversal_effect ops : Forall contributes_to_inputs ops → ∀ g w,
  ∃ g' t res,
    for_each ops visit (g, w)
    = ((g', mkWorld (mode_stack w) (history w ++ t)), res) ∧
    visits ops t ∧
    outputs g' = outputs g ∧
    ∀ k, Forall (λ op, k ∉ pyid <$> op_inputs op) ops →
         map g' !! k = map g !! k.
Proof.
  induction 1 as [|op ops Hop _ IH]; intros g w.
  - exists g, [], (Ok tt). cbn. rewrite app_nil_r, world_eta.
    split; [done|]. split; [constructor|]. done.
  - destruct (visit_effect op Hop g w)
      as (g1 & adds & res1 & Hrun1 & Hadds & Hout1 & Hframe1).
    cbn [for_each]. destruct res1 as [[]|e].
    + rewrite (bind_Ok _ _ _ _ _ Hrun1).
      destruct (IH g1 (mkWorld (mode_stack w)
                         (history w ++ called_update_gradient op :: adds)))
        as (g2 & t & res & Hrun2 & Hvis & Hout2 & Hframe2).
      exists g2, (called_update_gradient op :: adds ++ t), res.
      cbn in Hrun2. rewrite <-app_assoc in Hrun2. split; [exact Hrun2|].
      split; [by constructor|]. split; [congruence|].
      intros k Hk. inversion_clear Hk.
      rewrite Hframe2 by done. by apply Hframe1.
    + rewrite (bind_Raise _ _ _ _ _ Hrun1).
      exists g1, (called_update_gradient op :: adds ++ []), (Raise e).
      rewrite app_nil_r. split; [done|].
      split; [rewrite <-(app_nil_r adds); constructor; [done|constructor]|].
      split; [done|]. intros k Hk. inversion_clear Hk. by apply Hframe1.
Qed.

(** No gradient method changes the mode stack. *)
Lemma call_mode_stack (p : prog R) : ∀ g w,
  mode_stack (call p (g, w)).1.2 = mode_stack w.
Proof.
  induction p as [|e|r k IH|r k IH|r d k IH|k IH]; intros g w; try done.
  - cbn [call]. unfold bind, on_fst, __getitem__, get. cbn.
    destruct (map g !! pyid r); cbn; [apply IH | done].
  - cbn [call]. unfold bind, on_fst, __contains__, get. cbn. apply IH.
  - cbn [call]. rewrite (bind_Ok _ _ _ _ _ (record_spec _ _ _)).
    unfold bind at 1, on_fst at 1. cbn [fst snd].
    destruct (add r d g) as [g1 [[]|e]]; [|done].
    by rewrite IH.
  - cbn [call]. rewrite (bind_Ok _ _ _ _ _ (current_mode_spec _ _)).
    apply IH.
Qed.

Lemma traversal_mode_stack ops : ∀ g w,
  mode_stack (for_each ops visit (g, w)).1.2 = mode_stack w.
Proof.
  induction ops as [|op ops IH]; intros g w; [done|].
  cbn [for_each]. unfold bind, visit at 1.
  rewrite (bind_Ok _ _ _ _ _ (record_spec _ _ _)).
  pose proof (call_mode_stack (update_gradient op) g
                (mkWorld (mode_stack w)
                   (history w ++ [called_update_gradient op]))) as Hc.
  destruct (call _ _) as [[g1 w1] [[]|e]]; cbn in Hc.
  - by rewrite IH.
  - done.
Qed.

(** [bprop] is the loop run with ['build'] pushed, and the stack cut back
    to what it was afterwards. *)
Lemma bprop_unfold G self w :
  bprop G (self, w) =
    match for_each (reverse (io_toposort G (inputs G (outputs self))
                               (outputs self))) visit
            (self, mkWorld (build :: mode_stack w) (history w)) with
    | ((self', w'), res) =>
        ((self', mkWorld (mode_stack w) (history w')), res)
    end.
Proof.
  unfold bprop.
  assert (on_snd (on_modes build_mode) (self, w)
          = ((self, mkWorld (build :: mode_stack w) (history w)), Ok tt))
    as Hpush by done.
  rewrite (bind_Ok _ _ _ _ _ Hpush). unfold try_finally.
  assert (on_fst get (self, mkWorld (build :: mode_stack w) (history w))
          = ((self, mkWorld (build :: mode_stack w) (history w)), Ok self))
    as Hget by done.
  rewrite (bind_Ok _ _ _ _ _ Hget). cbn zeta.
  pose proof (traversal_mode_stack
                (reverse (io_toposort G (inputs G (outputs self)) (outputs self)))
                self (mkWorld (build :: mode_stack w) (history w))) as Hm.
  change (λ op, bind (on_snd (record (called_update_gradient op)))
                  (λ _, call (update_gradient op))) with visit.
  destruct (for_each _ _ _) as [[self' w'] res]. cbn in Hm.
  unfold on_snd, on_modes, pop_mode, bind, get. cbn. rewrite Hm. done.
Qed.

Lemma bprop_mode_stack G self w :
  mode_stack (bprop G (self, w)).1.2 = mode_stack w.
Proof.
  rewrite bprop_unfold. by destruct (for_each _ _ _) as [[self1 w1] res1].
Qed.

End BackpropFacts.

(* ===================================================================== *)
(** ** Modes: restoration by [bprop], gating of [grad] *)
(* ===================================================================== *)

Section ModeClaims.
Context {R Raw : Type} `{!ValueLayer R Raw}.
Implicit Types (self : Grad R) (w : World R) (G : gof_graph R).

(** C3.  [bprop] pushes ['build'] on entry and pops on every exit path.
    Whatever the outcome [res] of [bprop] is, normal return or an exception
    raised by a gradient method partway through the traversal: the
    traversal is run in the world [pushed], which has ['build'] on top of
    the stack found on entry, so every gradient method is called with
    [current_mode()] answering ['build'] whatever the mode was before; the
    traversal ends, with that outcome, in a world [w1] that still has
    ['build'] on top; [pop_mode()] is then run on [w1], it succeeds and
    gives the final world; and the outcome of the traversal is the outcome
    of [bprop].  So the mode stack afterwards is the stack from before the
    call, and [current_mode()] answers as it did before. *)
Theorem bprop_restores_mode G self w self' w' res :
  bprop G (self, w) = ((self', w'), res) →
  let order := io_toposort G (inputs G (outputs self)) (outputs self) in
  let pushed := mkWorld (build :: mode_stack w) (history w) in
  on_snd (on_modes build_mode) (self, w) = ((self, pushed), Ok tt) ∧
  (∃ w1,
     for_each (reverse order) visit (self, pushed) = ((self', w1), res) ∧
     mode_stack w1 = build :: mode_stack w ∧
     on_snd (on_modes pop_mode) (self', w1) = ((self', w'), Ok tt)) ∧
  (∀ before op after g1 w1,
     reverse order = before ++ op :: after →
     for_each before visit (self, pushed) = ((g1, w1), Ok tt) →
     on_modes current_mode w1 = (w1, Ok (Some build))) ∧
  mode_stack w' = mode_stack w ∧
  (on_modes current_mode w').2 = (on_modes current_mode w).2.
Proof.
  intros Hrun order pushed.
  pose proof (bprop_mode_stack G self w) as Hstack.
  rewrite Hrun in Hstack. cbn in Hstack.
  split; [done|]. split; [|split; [|split]].
  - rewrite bprop_unfold in Hrun. fold order pushed in Hrun.
    pose proof (traversal_mode_stack (reverse order) self pushed) as Hm.
    destruct (for_each (reverse order) visit (self, pushed))
      as [[self1 w1] res1].
    injection Hrun as -> <- ->. cbn in Hm.
    exists w1. split; [done|]. split; [done|].
    destruct w1 as [stack1 history1]. cbn in Hm. by subst stack1.
  - intros before op after g1 w1 _ Hbefore.
    pose proof (traversal_mode_stack before self pushed) as Hm.
    rewrite Hbefore in Hm. cbn in Hm.
    by rewrite on_modes_current_mode, Hm.
  - done.
  - by rewrite !on_modes_current_mode, Hstack.
Qed.

(** C5.  When [current_mode()] is ['eval'], [grad] raises
    [NotImplementedError] (the UnsupportedInMode error) and the world is
    exactly as before: no accumulator was built on it, no gradient method
    was called and nothing was deposited (the history is unchanged), and the
    mode stack is untouched. *)
Theorem grad_in_eval_mode G cost param (cost_grad : Raw) w :
  on_modes current_mode w = (w, Ok (Some eval)) →
  grad G cost param cost_grad w
  = (w, Raise (NotImplementedError
                 "Gradient-related functions are not available in eval mode")).
Proof.
  intros Hmode. unfold grad. rewrite (bind_Ok _ _ _ _ _ Hmode).
  by destruct (decide (Some eval = Some eval)).
Qed.

(** The accumulator that [grad] builds before it runs [bprop]. *)
Lemma grad_after_seeding G cost param (cost_grad : Raw) w mode seeded :
  on_modes current_mode w = (w, Ok mode) → mode ≠ Some eval →
  __init__ [(cost, term (wrap cost_grad))] blank = (seeded, Ok tt) →
  grad G cost param cost_grad w =
    (ran <- with_object seeded (bprop G) ;;
     match param with
     | None => ret (returned_Grad ran.1)
     | Some param =>
         res <- with_object ran.1 (__call__ param) ;;
         ret (returned_expr res.2)
     end) w.
Proof.
  intros Hmode Hne Hseed. unfold grad. rewrite (bind_Ok _ _ _ _ _ Hmode).
  destruct (decide (mode = Some eval)); [done|].
  assert (with_object blank
            (on_fst (__init__ [(cost, term (wrap cost_grad))])) w
          = (w, Ok (seeded, tt))) as Hnew.
  { unfold with_object, on_fst. cbn [fst snd]. by rewrite Hseed. }
  by rewrite (bind_Ok _ _ _ _ _ Hnew).
Qed.

(** [__call__] on an accumulator: the entry, computed when the mode is
    ['build_eval'] and only then. *)
Lemma call_entry item self w rval :
  map self !! pyid item = Some rval →
  __call__ item (self, w) =
    ((self, mkWorld (mode_stack w)
              (history w ++ if decide (head (mode_stack w) = Some build_eval)
                            then [called_compute rval] else [])),
     Ok rval).
Proof.
  intros Hentry. unfold __call__.
  assert (on_fst (__getitem__ item) (self, w) = ((self, w), Ok rval)) as Hget.
  { unfold on_fst. cbn [fst snd]. by rewrite (getitem_Some _ _ _ Hentry). }
  rewrite (bind_Ok _ _ _ _ _ Hget).
  assert (on_snd (on_modes current_mode) (self, w)
          = ((self, w), Ok (head (mode_stack w)))) as Hmode.
  { unfold on_snd. cbn [fst snd]. by rewrite on_modes_current_mode. }
  rewrite (bind_Ok _ _ _ _ _ Hmode).
  destruct (decide (head (mode_stack w) = Some build_eval)).
  - by rewrite (bind_Ok _ _ _ _ _ (record_spec _ _ _)).
  - unfold bind, ret. by rewrite app_nil_r, world_eta.
Qed.

Lemma call_missing item self w :
  map self !! pyid item = None →
  __call__ item (self, w) = ((self, w), Raise (KeyError (pyid item))).
Proof.
  intros Hentry. unfold __call__.
  assert (on_fst (__getitem__ item) (self, w)
          = ((self, w), Raise (KeyError (pyid item)))) as Hget.
  { unfold on_fst. cbn [fst snd]. by rewrite (getitem_None _ _ Hentry). }
  by rewrite (bind_Raise _ _ _ _ _ Hget).
Qed.

(** C7.  Outside ['eval'] mode, once the accumulator is seeded and [bprop]
    has run to its end leaving the accumulator [self'] in the world [w']:
    with [param] omitted [grad] returns [self'] itself; with [param] given
    it returns what [self'(param)] returns, which is the entry of [param]
    ([KeyError] when there is none), and [compute()] is called on that
    entry exactly when the mode is ['build_eval']; in any other mode the
    entry is returned with nothing computed. *)
Theorem grad_returns G cost (cost_grad : Raw) w mode seeded self' w' :
  on_modes current_mode w = (w, Ok mode) → mode ≠ Some eval →
  __init__ [(cost, term (wrap cost_grad))] blank = (seeded, Ok tt) →
  bprop G (seeded, w) = ((self', w'), Ok tt) →
  grad G cost None cost_grad w = (w', Ok (returned_Grad self')) ∧
  (∀ param,
     grad G cost (Some param) cost_grad w =
       match __call__ param (self', w') with
       | ((_, w''), Ok rval) => (w'', Ok (returned_expr rval))
       | ((_, w''), Raise e) => (w'', Raise e)
       end) ∧
  (∀ param, map self' !! pyid param = None →
     __call__ param (self', w')
     = ((self', w'), Raise (KeyError (pyid param)))) ∧
  (∀ param rval, map self' !! pyid param = Some rval →
     __call__ param (self', w')
     = ((self', mkWorld (mode_stack w')
                  (history w' ++ if decide (mode = Some build_eval)
                                 then [called_compute rval] else [])),
        Ok rval)).
Proof.
  intros Hmode Hne Hseed Hrun.
  assert (with_object seeded (bprop G) w = (w', Ok (self', tt))) as Hran.
  { unfold with_object. by rewrite Hrun. }
  assert (mode = head (mode_stack w')) as ->.
  { rewrite on_modes_current_mode in Hmode.
    pose proof (bprop_mode_stack G seeded w) as Hstack.
    rewrite Hrun in Hstack. cbn in Hstack. rewrite Hstack. congruence. }
  split; [|split; [|split]].
  - rewrite (grad_after_seeding _ _ _ _ _ _ _ Hmode Hne Hseed).
    by rewrite (bind_Ok _ _ _ _ _ Hran).
  - intros param.
    rewrite (grad_after_seeding _ _ _ _ _ _ _ Hmode Hne Hseed).
    rewrite (bind_Ok _ _ _ _ _ Hran). cbn [fst].
    unfold bind, with_object.
    by destruct (__call__ param (self', w')) as [[g'' w''] [rval|e]].
  - intros param. apply call_missing.
  - intros param rval. apply call_entry.
Qed.

End ModeClaims.

(* ===================================================================== *)
(** ** Topological order and the order of the calls *)
(* ===================================================================== *)

Section OrderFacts.
Context {R Raw : Type} `{!ValueLayer R Raw}.
Implicit Types (op c p : Op R) (ops order : list (Op R)) (t : list (event R)).










End OrderFacts.

Section TraversalClaims.
Context {R Raw : Type} `{!ValueLayer R Raw}.
Implicit Types (self : Grad R) (w : World R) (G : gof_graph R).


(** C6.  Outside ['eval'] mode, for a cost that passes the shape rule
    against [wrap(1.0)], [grad(cost)] with the default [cost_grad] seeds
    the accumulator with the single entry [cost ↦ wrap(1.0)] and the single
    output [cost]; when no operation of the traversal has [cost] among its
    inputs and the traversal runs to its end, that entry is still
    [wrap(1.0)] in the accumulator [grad(cost)] returns, and
    [grad(cost, cost)] returns it. *)
Theorem grad_default_seeds_identity G cost w mode :
  on_modes current_mode w = (w, Ok mode) → mode ≠ Some eval →
  passes_shape_rules cost (wrap default_cost_grad) = true →
  Forall (λ op, contributes_to_inputs op ∧ pyid cost ∉ pyid <$> op_inputs op)
         (io_toposort G (inputs G [cost]) [cost]) →
  (bprop G (mkGrad {[pyid cost := wrap default_cost_grad]} [cost], w)).2
    = Ok tt →
  __init__ [(cost, term (wrap default_cost_grad))] blank
    = (mkGrad {[pyid cost := wrap default_cost_grad]} [cost], Ok tt) ∧
  (∃ self' w',
     grad G cost None default_cost_grad w = (w', Ok (returned_Grad self')) ∧
     map self' !! pyid cost = Some (wrap default_cost_grad)) ∧
  (∃ w', grad G cost (Some cost) default_cost_grad w
         = (w', Ok (returned_expr (wrap default_cost_grad)))).
Proof.
  intros Hmode Hne Hshape Hops Hok.
  assert (__init__ [(cost, term (wrap default_cost_grad))] blank
          = (mkGrad {[pyid cost := wrap default_cost_grad]} [cost], Ok tt))
    as Hseed.
  { unfold __init__. cbn [for_each fst snd]. unfold bind at 1, modify at 1.
    unfold bind at 1, add_output.
    rewrite (bind_Ok _ _ _ _ _ (add_term_ok _ _ _ Hshape)). cbn.
    by rewrite lookup_empty, insert_empty. }
  split; [exact Hseed|].
  set (seeded := mkGrad {[pyid cost := wrap default_cost_grad]} [cost]) in *.
  assert (Forall contributes_to_inputs
            (reverse (io_toposort G (inputs G (outputs seeded)) (outputs seeded))))
    as Hops1.
  { apply Forall_reverse. eapply Forall_impl; [exact Hops|]. by intros ? [? ?]. }
  destruct (traversal_effect _ Hops1 seeded
              (mkWorld (build :: mode_stack w) (history w)))
    as (self' & t & res & Hrun & _ & _ & Hframe).
  pose proof (bprop_unfold G seeded w) as Hb. rewrite Hrun in Hb.
  rewrite Hb in Hok. cbn in Hok. subst res.
  assert (map self' !! pyid cost = Some (wrap default_cost_grad)) as Hentry.
  { rewrite Hframe; [apply lookup_singleton_eq|].
    apply Forall_reverse. eapply Forall_impl; [exact Hops|]. by intros ? [? ?]. }
  assert (with_object seeded (bprop G) w
          = (mkWorld (mode_stack w) (history w ++ t), Ok (self', tt))) as Hran.
  { unfold with_object. by rewrite Hb. }
  split.
  - exists self', (mkWorld (mode_stack w) (history w ++ t)). split; [|done].
    rewrite (grad_after_seeding _ _ _ _ _ _ _ Hmode Hne Hseed).
    by rewrite (bind_Ok _ _ _ _ _ Hran).
  - eexists.
    rewrite (grad_after_seeding _ _ _ _ _ _ _ Hmode Hne Hseed).
    rewrite (bind_Ok _ _ _ _ _ Hran). cbn [fst].
    unfold bind, with_object. rewrite (call_entry _ _ _ _ Hentry). done.
Qed.

End TraversalClaims.

(* ===================================================================== *)
(** ** The claims on the diamond-shaped graph *)
(* ===================================================================== *)

Lemma diamond_contributes :
  Forall (λ op, contributes_to_inputs op ∧
                pyid diamond.y ∉ pyid <$> op_inputs op)
         [diamond.op_a; diamond.op_b; diamond.op_y].
Proof.
  unfold contributes_to_inputs.
  repeat (apply List.Forall_cons;
          [split; [cbn; intros; repeat split; compute_done | compute_done]|]).
  apply List.Forall_nil.
Qed.


Lemma bprop_restores_mode_witness :
  let self := diamond.seeded in
  let w := diamond.w_build_eval in
  let run := bprop diamond.G_probing (self, w) in
  let order := [diamond.op_a; diamond.op_b; diamond.op_y_probing] in
  let pushed := mkWorld (build :: mode_stack w) (history w) in
  run.2 = Raise (OpException 0) ∧
  on_snd (on_modes build_mode) (self, w) = ((self, pushed), Ok tt) ∧
  (∃ w1,
     for_each (reverse order) visit (self, pushed) = ((run.1.1, w1), run.2) ∧
     mode_stack w1 = build :: mode_stack w ∧
     on_snd (on_modes pop_mode) (run.1.1, w1) = ((run.1.1, run.1.2), Ok tt)) ∧
  (∀ before op after g1 w1,
     reverse order = before ++ op :: after →
     for_each before visit (self, pushed) = ((g1, w1), Ok tt) →
     on_modes current_mode w1 = (w1, Ok (Some build))) ∧
  mode_stack run.1.2 = mode_stack w ∧
  (on_modes current_mode run.1.2).2 = (on_modes current_mode w).2.
Proof.
  intros self w run order pushed. split; [reflexivity|].
  apply (bprop_restores_mode diamond.G_probing self w run.1.1 run.1.2 run.2).
  vm_compute. reflexivity.
Defined.

Lemma grad_in_eval_mode_witness :
  grad diamond.G diamond.y (Some diamond.x) default_cost_grad diamond.w_eval
  = (diamond.w_eval,
     Raise (NotImplementedError
              "Gradient-related functions are not available in eval mode")).
Proof.
  apply (grad_in_eval_mode diamond.G diamond.y (Some diamond.x)
           default_cost_grad diamond.w_eval).
  reflexivity.
Defined.

Lemma grad_returns_witness :
  let w := diamond.w_build_eval in
  let run := bprop diamond.G (diamond.seeded, w) in
  grad diamond.G diamond.y None default_cost_grad w
  = (run.1.2, Ok (returned_Grad run.1.1)) ∧
  (∀ param,
     grad diamond.G diamond.y (Some param) default_cost_grad w =
       match __call__ param (run.1.1, run.1.2) with
       | ((_, w''), Ok rval) => (w'', Ok (returned_expr rval))
       | ((_, w''), Raise e) => (w'', Raise e)
       end) ∧
  (∀ param, map run.1.1 !! pyid param = None →
     __call__ param (run.1.1, run.1.2)
     = ((run.1.1, run.1.2), Raise (KeyError (pyid param)))) ∧
  (∀ param rval, map run.1.1 !! pyid param = Some rval →
     __call__ param (run.1.1, run.1.2)
     = ((run.1.1, mkWorld (mode_stack run.1.2)
                    (history run.1.2 ++
                     if decide (Some build_eval = Some build_eval)
                     then [called_compute rval] else [])),
        Ok rval)).
Proof.
  intros w run.
  apply (grad_returns diamond.G diamond.y default_cost_grad w
           (Some build_eval) diamond.seeded run.1.1 run.1.2).
  - reflexivity.
  - discriminate.
  - vm_compute. reflexivity.
  - vm_compute. reflexivity.
Defined.

Lemma grad_default_seeds_identity_witness :
  __init__ [(diamond.y, term (wrap default_cost_grad))] blank
    = (mkGrad {[pyid diamond.y := wrap default_cost_grad]} [diamond.y], Ok tt) ∧
  (∃ self' w',
     grad diamond.G diamond.y None default_cost_grad diamond.w_build
     = (w', Ok (returned_Grad self')) ∧
     map self' !! pyid diamond.y = Some (wrap default_cost_grad)) ∧
  (∃ w', grad diamond.G diamond.y (Some diamond.y) default_cost_grad
           diamond.w_build
         = (w', Ok (returned_expr (wrap default_cost_grad)))).
Proof.
  apply (grad_default_seeds_identity diamond.G diamond.y diamond.w_build
           (Some build)).
  - reflexivity.
  - discriminate.
  - reflexivity.
  - apply diamond_contributes.
  - vm_compute. reflexivity.
Defined.

(** The gradient of [y] with respect to [x] on the diamond: the two
    contributions that reach [x] are summed. *)
Example grad_diamond_fan_out :
  (grad diamond.G diamond.y (Some diamond.x) default_cost_grad
     diamond.w_build).2
  = Ok (returned_expr (plus (wrap one) (wrap one))).
Proof. vm_compute. reflexivity. Qed.

(* ===================================================================== *)
(** ** More on the methods of [Grad] *)
(* ===================================================================== *)

Section GradMore.
Context {R Raw : Type} `{!ValueLayer R Raw}.
Implicit Types (r dr item other : R) (d : gradient R) (self g : Grad R).

(** A term that fails the shape rule is refused with the accumulator as it
    was; the exception depends on which payload lacks a shape. *)
Lemma add_term_rejected r dr self :
  passes_shape_rules r dr = false →
  add r (term dr) self =
    (self, Raise match shape (data r), shape (data dr) with
                 | None, _ => ValueError "Grad::add r lacks shape: type="
                 | Some _, None => ValueError "Grad::add dr lacks shape: type="
                 | Some _, Some _ => NameError "v"
                 end).
Proof.
  unfold passes_shape_rules, add. intros Hs.
  destruct (is_UNCOMPUTED (data r) || is_UNCOMPUTED (data dr)); [done|].
  cbn in Hs.
  destruct (shape (data r)) as [rs|]; [|done].
  destruct (shape (data dr)) as [drs|]; [|done].
  apply bool_decide_eq_false in Hs.
  unfold bind at 1. cbn. by destruct (decide (rs ≠ drs)).
Qed.

Lemma add_keeps_entries r d self k :
  is_Some (map self !! k) → is_Some (map (add r d self).1 !! k).
Proof.
  intros Hk. destruct d as [|dr]; [done|].
  destruct (passes_shape_rules r dr) eqn:Hs.
  - rewrite (add_term_ok _ _ _ Hs). cbn.
    destruct (decide (k = pyid r)) as [->|Hne].
    + rewrite lookup_insert_eq. eauto.
    + by rewrite lookup_insert_ne.
  - by rewrite (add_term_rejected _ _ _ Hs).
Qed.

Lemma add_output_accepted r d self :
  seed_accepted (r, d) →
  add_output r d self =
    (mkGrad match d with
            | UNDEFINED => map self
            | term dr => <[pyid r := match map self !! pyid r with
                                     | Some old => radd old dr
                                     | None => dr
                                     end]> (map self)
            end (outputs self ++ [r]), Ok tt).
Proof.
  unfold seed_accepted, add_output. destruct d as [|dr]; cbn; [done|].
  intros Hs. by rewrite (bind_Ok _ _ _ _ _ (add_term_ok _ _ _ Hs)).
Qed.

(** X1.  Storing with [self[item] = val] and reading back: the lookup of
    [item] then returns [val] and [item in self] is true, whatever was
    stored before (the old entry is replaced, not added to); lookups of
    nodes with another identity and the outputs are as before. *)
Theorem setitem_then_getitem item val self :
  let self' := (__setitem__ item val self).1 in
  __getitem__ item self' = (self', Ok val) ∧
  __contains__ item self' = (self', Ok true) ∧
  (∀ other, pyid other ≠ pyid item →
     (__getitem__ other self').2 = (__getitem__ other self).2) ∧
  (∀ val0, (__setitem__ item val (__setitem__ item val0 self).1).1 = self') ∧
  outputs self' = outputs self.
Proof.
  intros self'.
  assert (self' = mkGrad (<[pyid item := val]> (map self)) (outputs self))
    as -> by done.
  split; [|split; [|split; [|split]]].
  - apply getitem_Some. cbn. by rewrite lookup_insert_eq.
  - rewrite contains_spec. cbn. rewrite lookup_insert_eq.
    by rewrite bool_decide_true by eauto.
  - intros other Hne. unfold __getitem__, bind, get. cbn.
    rewrite lookup_insert_ne by done. by destruct (map self !! pyid other).
  - intros val0. unfold __setitem__, modify. cbn. by rewrite insert_insert_eq.
  - done.
Qed.

(** X2.  [item in self] never raises and never changes the accumulator; it
    answers true exactly when [self[item]] returns an entry, and false
    exactly when [self[item]] raises [KeyError]. *)
Theorem contains_agrees_with_getitem item self :
  ∃ b, __contains__ item self = (self, Ok b) ∧
    (b = true ↔ ∃ val, __getitem__ item self = (self, Ok val)) ∧
    (b = false ↔ __getitem__ item self = (self, Raise (KeyError (pyid item)))).
Proof.
  eexists. split; [apply contains_spec|].
  destruct (map self !! pyid item) as [val|] eqn:Hl.
  - rewrite bool_decide_true by eauto. rewrite (getitem_Some _ _ _ Hl).
    split; split; try done. by exists val.
  - rewrite bool_decide_false by (intros [? ?]; congruence).
    rewrite (getitem_None _ _ Hl). split; split; try done. by intros [? ?].
Qed.

(** X3.  When [add] raises, the accumulator is exactly as before the call,
    and the exception is one of three: the two [ValueError]s for a payload
    without a shape, or the [NameError] for [v].  In particular [add] never
    raises [KeyError]: it reads [self[r]] only after [r in self]. *)
Theorem add_failure_leaves_accumulator r d self self' e :
  add r d self = (self', Raise e) →
  self' = self ∧
  (e = ValueError "Grad::add r lacks shape: type=" ∨
   e = ValueError "Grad::add dr lacks shape: type=" ∨
   e = NameError "v").
Proof.
  destruct d as [|dr]; [done|].
  destruct (passes_shape_rules r dr) eqn:Hs.
  - by rewrite (add_term_ok _ _ _ Hs).
  - rewrite (add_term_rejected _ _ _ Hs). intros [= <- <-]. split; [done|].
    destruct (shape (data r)); [destruct (shape (data dr))|]; auto.
Qed.

(** X4.  A contribution that is not [UNDEFINED] is accepted exactly when it
    passes the shape rule: one payload is [UNCOMPUTED], or both have a shape
    and the shapes are equal. *)
Theorem add_accepts_iff_shape_rule r dr self :
  (add r (term dr) self).2 = Ok tt ↔ passes_shape_rules r dr = true.
Proof.
  destruct (passes_shape_rules r dr) eqn:Hs.
  - by rewrite (add_term_ok _ _ _ Hs).
  - by rewrite (add_term_rejected _ _ _ Hs).
Qed.


(** X6.  Whatever its outcome, [add(r, dr)] leaves the outputs and the
    entries of all nodes other than [r] as they were, and it never removes
    an entry. *)
Theorem add_touches_only_its_target r d self :
  let self' := (add r d self).1 in
  outputs self' = outputs self ∧
  (∀ k, k ≠ pyid r → map self' !! k = map self !! k) ∧
  (∀ k, is_Some (map self !! k) → is_Some (map self' !! k)).
Proof.
  intros self'. destruct (add_frame r d self) as [Hout Hframe].
  split; [done|]. split; [done|]. intros k. apply add_keeps_entries.
Qed.

(** X7.  [add_output] registers a node as an output only after its term has
    been accepted: with a term that passes the shape rule the entry is
    stored and the node appended; with a term that fails it, the exception
    of [add] leaves the call and the accumulator, outputs included, is as
    before. *)
Theorem add_output_registers_only_accepted r dr self :
  (passes_shape_rules r dr = true →
     ∃ self', add_output r (term dr) self = (self', Ok tt) ∧
       outputs self' = outputs self ++ [r] ∧
       is_Some (map self' !! pyid r)) ∧
  (passes_shape_rules r dr = false →
     ∃ e, add_output r (term dr) self = (self, Raise e)).
Proof.
  split; intros Hs.
  - eexists. split; [by apply (add_output_accepted r (term dr))|].
    cbn. split; [done|]. rewrite lookup_insert_eq. eauto.
  - eexists. unfold add_output.
    by rewrite (bind_Raise _ _ _ _ _ (add_term_rejected _ _ _ Hs)).
Qed.

(** X8.  Seeding the same node twice with [add_output]: the two terms are
    summed in its entry (the second does not replace the first) and the
    node is listed twice in the outputs. *)
Theorem add_output_twice_sums r dr1 dr2 self :
  map self !! pyid r = None →
  passes_shape_rules r dr1 = true → passes_shape_rules r dr2 = true →
  (add_output r (term dr1) ;; add_output r (term dr2)) self
  = (mkGrad (<[pyid r := radd dr1 dr2]> (map self)) (outputs self ++ [r; r]),
     Ok tt).
Proof.
  intros Hnone H1 H2.
  rewrite (bind_Ok _ _ _ _ _ (add_output_accepted r (term dr1) self H1)).
  rewrite (add_output_accepted r (term dr2) _ H2). cbn.
  rewrite Hnone, lookup_insert_eq, insert_insert_eq, <-app_assoc. done.
Qed.

End GradMore.

(* ===================================================================== *)
(** ** The constructor *)
(* ===================================================================== *)

Section InitFacts.
Context {R Raw : Type} `{!ValueLayer R Raw}.
Implicit Types (r dr : R) (d : gradient R) (self g : Grad R).
Implicit Types (dct : list (R * gradient R)).

(** The loop of [__init__] over items that are all accepted. *)
Lemma seed_all dct : Forall seed_accepted dct → ∀ g,
  ∃ g',
    for_each dct (λ kv, add_output kv.1 kv.2) g = (g', Ok tt) ∧
    outputs g' = outputs g ++ dct.*1 ∧
    (∀ k, k ∉ pyid <$> dct.*1 → map g' !! k = map g !! k) ∧
    (NoDup (pyid <$> dct.*1) →
     ∀ r d, (r, d) ∈ dct → map g !! pyid r = None →
       map g' !! pyid r = seed_entry d).
Proof.
  induction 1 as [|[r0 d0] dct Hacc _ IH]; intros g.
  - exists g. cbn. rewrite app_nil_r. split; [done|]. split; [done|].
    split; [done|]. intros _ r d Hin. by apply elem_of_nil in Hin.
  - pose proof (add_output_accepted r0 d0 g Hacc) as Hstep.
    set (g1 := mkGrad _ (outputs g ++ [r0])) in Hstep.
    assert (∀ k, k ≠ pyid r0 → map g1 !! k = map g !! k) as Hframe1.
    { intros k Hk. unfold g1. cbn. destruct d0; [done|].
      by rewrite lookup_insert_ne. }
    destruct (IH g1) as (g' & Hrun & Hout & Hframe & Hentries).
    exists g'. cbn [for_each fst snd fmap list_fmap].
    rewrite (bind_Ok _ _ _ _ _ Hstep).
    split; [exact Hrun|]. split; [|split].
    + rewrite Hout. unfold g1. cbn. by rewrite <-app_assoc.
    + intros k Hk. cbn in Hk. apply not_elem_of_cons in Hk as [Hk0 Hk].
      rewrite (Hframe k Hk). by apply Hframe1.
    + intros Hnodup r d Hin Hnone. cbn in Hnodup.
      apply NoDup_cons in Hnodup as [Hfresh Hnodup].
      apply elem_of_cons in Hin as [[= -> ->]|Hin].
      * rewrite (Hframe _ Hfresh). unfold g1. cbn. destruct d0 as [|dr0]; cbn.
        -- done.
        -- by rewrite lookup_insert_eq, Hnone.
      * assert (pyid r ∈ pyid <$> dct.*1) as Hr.
        { apply list_elem_of_fmap_2.
          by apply (list_elem_of_fmap_2 fst _ (r, d)). }
        apply (Hentries Hnodup r d Hin).
        rewrite Hframe1; [done|]. intros Heq. by rewrite Heq in Hr.
Qed.

(** X9.  [Grad(dct)] with items that are all accepted ([UNDEFINED], or a
    term passing the shape rule): the constructor succeeds whatever the
    object held before; the outputs are the keys in iteration order; only
    the keys can have an entry; and when the keys have distinct
    identities, a key given a term has exactly that term as entry and a key
    given [UNDEFINED] has none. *)
Theorem init_seeds_every_item dct self :
  Forall seed_accepted dct →
  ∃ self',
    __init__ dct self = (self', Ok tt) ∧
    outputs self' = dct.*1 ∧
    (∀ k, k ∉ pyid <$> dct.*1 → map self' !! k = None) ∧
    (NoDup (pyid <$> dct.*1) →
     ∀ r d, (r, d) ∈ dct → map self' !! pyid r = seed_entry d).
Proof.
  intros Hacc.
  destruct (seed_all dct Hacc (mkGrad ∅ []))
    as (self' & Hrun & Hout & Hframe & Hentries).
  exists self'. split; [exact Hrun|]. split; [exact Hout|]. split.
  - intros k Hk. by rewrite (Hframe k Hk).
  - intros Hnodup r d Hin. by apply Hentries.
Qed.

(** Every accepted item given a term has an entry once the loop of
    [__init__] has run, and the loop removes no entry. *)
Lemma seed_all_stored dct : Forall seed_accepted dct → ∀ g g',
  for_each dct (λ kv, add_output kv.1 kv.2) g = (g', Ok tt) →
  (∀ k, is_Some (map g !! k) → is_Some (map g' !! k)) ∧
  (∀ r dr, (r, term dr) ∈ dct → is_Some (map g' !! pyid r)).
Proof.
  induction 1 as [|[r0 d0] dct Hacc _ IH]; intros g g' Hrun.
  - cbn in Hrun. injection Hrun as <-. split; [done|].
    intros r dr Hin. by apply elem_of_nil in Hin.
  - cbn [for_each fst snd] in Hrun.
    rewrite (bind_Ok _ _ _ _ _ (add_output_accepted r0 d0 g Hacc)) in Hrun.
    destruct (IH _ _ Hrun) as [Hkeep Hstored].
    assert (∀ k, is_Some (map g !! k) →
              is_Some (match d0 with
                       | UNDEFINED => map g
                       | term dr0 =>
                           <[pyid r0 := match map g !! pyid r0 with
                                        | Some old => radd old dr0
                                        | None => dr0
                                        end]> (map g)
                       end !! k)) as Hkeep1.
    { intros k Hk. destruct d0 as [|dr0]; [done|].
      destruct (decide (k = pyid r0)) as [->|Hne].
      - rewrite lookup_insert_eq. eauto.
      - by rewrite lookup_insert_ne. }
    split.
    + intros k Hk. apply Hkeep. cbn. by apply Hkeep1.
    + intros r dr Hin. apply elem_of_cons in Hin as [Heq|Hin].
      * injection Heq as -> <-.
        apply Hkeep. cbn. rewrite lookup_insert_eq. eauto.
      * by apply (Hstored r dr).
Qed.

(** X10.  The constructor stops at the first item whose term is refused:
    it raises the exception of [add], and the accumulator it leaves is
    exactly the one [Grad] builds from the items before the refused one.
    Those items are seeded (each one given a term has an entry, the term
    itself when the keys have distinct identities) and registered as
    outputs in order; no item from the refused one on is registered, and
    nothing outside the earlier keys has an entry. *)
Theorem init_stops_at_refused_item dct1 r dr dct2 self :
  Forall seed_accepted dct1 →
  passes_shape_rules r dr = false →
  ∃ self' e,
    __init__ (dct1 ++ (r, term dr) :: dct2) self = (self', Raise e) ∧
    (e = ValueError "Grad::add r lacks shape: type=" ∨
     e = ValueError "Grad::add dr lacks shape: type=" ∨
     e = NameError "v") ∧
    __init__ dct1 self = (self', Ok tt) ∧
    outputs self' = dct1.*1 ∧
    (∀ r0 dr0, (r0, term dr0) ∈ dct1 → is_Some (map self' !! pyid r0)) ∧
    (NoDup (pyid <$> dct1.*1) →
     ∀ r0 d0, (r0, d0) ∈ dct1 → map self' !! pyid r0 = seed_entry d0) ∧
    (∀ k, k ∉ pyid <$> dct1.*1 → map self' !! k = None).
Proof.
  intros Hacc Hs.
  destruct (seed_all dct1 Hacc (mkGrad ∅ []))
    as (self' & Hrun & Hout & Hframe & Hentries).
  destruct (seed_all_stored dct1 Hacc _ _ Hrun) as [_ Hstored].
  exists self'.
  exists match shape (data r), shape (data dr) with
         | None, _ => ValueError "Grad::add r lacks shape: type="
         | Some _, None => ValueError "Grad::add dr lacks shape: type="
         | Some _, Some _ => NameError "v"
         end.
  split; [|split; [|split; [|split; [|split; [|split]]]]].
  - unfold __init__. unfold bind at 1, modify at 1.
    rewrite for_each_app, (bind_Ok _ _ _ _ _ Hrun). cbn [for_each fst snd].
    apply bind_Raise. unfold add_output.
    apply bind_Raise, add_term_rejected, Hs.
  - destruct (shape (data r)); [destruct (shape (data dr))|]; auto.
  - exact Hrun.
  - exact Hout.
  - exact Hstored.
  - intros Hnodup r0 d0 Hin. by apply Hentries.
  - intros k Hk. by rewrite (Hframe k Hk).
Qed.

End InitFacts.

(* ===================================================================== *)
(** ** More on the backward traversal *)
(* ===================================================================== *)

Section BackpropMore.
Context {R Raw : Type} `{!ValueLayer R Raw}.
Implicit Types (r dr item : R) (self g : Grad R) (w : World R).
Implicit Types (op : Op R) (ops : list (Op R)) (t : list (event R)).
Implicit Types (G : gof_graph R).

Lemma update_gradient_calls_app t1 t2 :
  update_gradient_calls (t1 ++ t2)
  = update_gradient_calls t1 ++ update_gradient_calls t2.
Proof. apply omap_app. Qed.

(** What any gradient method keeps, whatever it deposits. *)
Lemma call_keeps (p : prog R) : ∀ g w,
  ∃ g' adds res,
    call p (g, w) = ((g', mkWorld (mode_stack w) (history w ++ adds)), res) ∧
    update_gradient_calls adds = [] ∧
    outputs g' = outputs g ∧
    ∀ k, is_Some (map g !! k) → is_Some (map g' !! k).
Proof.
  induction p as [|e|r k IH|r k IH|r d k IH|k IH]; intros g w.
  - exists g, [], (Ok tt). rewrite app_nil_r, world_eta. by repeat split.
  - exists g, [], (Raise e). rewrite app_nil_r, world_eta. by repeat split.
  - cbn [call]. unfold bind, on_fst, __getitem__, get. cbn.
    destruct (map g !! pyid r) as [val|]; cbn.
    + apply IH.
    + exists g, [], (Raise (KeyError (pyid r))).
      rewrite app_nil_r, world_eta. by repeat split.
  - cbn [call]. unfold bind, on_fst, __contains__, get. cbn. apply IH.
  - cbn [call]. rewrite (bind_Ok _ _ _ _ _ (record_spec _ _ _)).
    destruct (add_frame r d g) as [Hout _].
    pose proof (add_keeps_entries r d g) as Hkeep.
    unfold bind at 1, on_fst at 1. cbn [fst snd].
    destruct (add r d g) as [g1 [[]|e]] eqn:Hadd; cbn in Hout, Hkeep.
    + destruct (IH g1 (mkWorld (mode_stack w) (history w ++ [called_add r d])))
        as (g' & adds & res & Hrun & Hcalls & Hout' & Hkeep').
      exists g', (called_add r d :: adds), res. cbn in Hrun.
      rewrite <-app_assoc in Hrun. split; [exact Hrun|].
      split; [exact Hcalls|]. split; [congruence|]. auto.
    + exists g1, [called_add r d], (Raise e). by repeat split.
  - cbn [call]. rewrite (bind_Ok _ _ _ _ _ (current_mode_spec _ _)).
    apply IH.
Qed.

(** What the loop keeps, and which methods it calls. *)
Lemma traversal_keeps ops : ∀ g w,
  ∃ g' t res,
    for_each ops visit (g, w)
    = ((g', mkWorld (mode_stack w) (history w ++ t)), res) ∧
    outputs g' = outputs g ∧
    (∀ k, is_Some (map g !! k) → is_Some (map g' !! k)) ∧
    match res with
    | Ok _ => update_gradient_calls t = ops
    | Raise _ =>
        update_gradient_calls t `prefix_of` ops ∧ update_gradient_calls t ≠ []
    end.
Proof.
  induction ops as [|op ops IH]; intros g w.
  - exists g, [], (Ok tt). cbn. rewrite app_nil_r, world_eta. by repeat split.
  - cbn [for_each]. unfold visit at 1.
    unfold bind at 1.
    rewrite (bind_Ok _ _ _ _ _ (record_spec _ _ _)).
    destruct (call_keeps (update_gradient op) g
                (mkWorld (mode_stack w)
                   (history w ++ [called_update_gradient op])))
      as (g1 & adds & res1 & Hrun1 & Hcalls1 & Hout1 & Hkeep1).
    cbn in Hrun1. rewrite <-app_assoc in Hrun1. rewrite Hrun1.
    destruct res1 as [[]|e].
    + destruct (IH g1 (mkWorld (mode_stack w)
                         (history w ++ [called_update_gradient op] ++ adds)))
        as (g2 & t & res & Hrun2 & Hout2 & Hkeep2 & Hcalls2).
      exists g2, (called_update_gradient op :: adds ++ t), res.
      cbn in Hrun2. rewrite <-app_assoc in Hrun2. split; [exact Hrun2|].
      split; [congruence|]. split; [auto|].
      change (update_gradient_calls (called_update_gradient op :: adds ++ t))
        with (op :: update_gradient_calls (adds ++ t)).
      rewrite update_gradient_calls_app, Hcalls1. cbn [app].
      destruct res as [[]|e].
      * by rewrite Hcalls2.
      * destruct Hcalls2 as [Hpre _]. split; [by apply prefix_cons|done].
    + exists g1, (called_update_gradient op :: adds), (Raise e).
      split; [done|]. split; [done|]. split; [done|].
      change (update_gradient_calls (called_update_gradient op :: adds))
        with (op :: update_gradient_calls adds).
      rewrite Hcalls1. split; [|done]. apply prefix_cons, prefix_nil.
Qed.

(** X11.  Whatever the operations do through the accumulator they are
    given, and whether [bprop] returns or raises, it leaves the list of
    outputs as it was and removes no entry: a node that had a gradient
    before the traversal has one after it. *)
Theorem bprop_keeps_outputs_and_entries G self w :
  let self' := (bprop G (self, w)).1.1 in
  outputs self' = outputs self ∧
  ∀ k, is_Some (map self !! k) → is_Some (map self' !! k).
Proof.
  intros self'. subst self'. rewrite bprop_unfold.
  destruct (traversal_keeps
              (reverse (io_toposort G (inputs G (outputs self)) (outputs self)))
              self (mkWorld (build :: mode_stack w) (history w)))
    as (g' & t & res & -> & Hout & Hkeep & _).
  done.
Qed.

(** X12.  When [io_toposort] returns no operation (the outputs are produced
    by nothing), [bprop] returns normally and leaves the accumulator and
    the world exactly as they were: no entry is added, nothing is called,
    and the mode is back to what it was. *)
Theorem bprop_without_operations G self w :
  io_toposort G (inputs G (outputs self)) (outputs self) = [] →
  bprop G (self, w) = ((self, w), Ok tt).
Proof.
  intros Hnil. rewrite bprop_unfold, Hnil. cbn. by rewrite world_eta.
Qed.


(** X14.  With operations that deposit into their own inputs only, [bprop]
    leaves the entry of every node that no operation of the traversal
    consumes as it was; in particular such a node without an entry is
    still without one afterwards. *)
Theorem bprop_leaves_unconsumed_nodes G self w k :
  let order := io_toposort G (inputs G (outputs self)) (outputs self) in
  Forall contributes_to_inputs order →
  Forall (λ op, k ∉ pyid <$> op_inputs op) order →
  map (bprop G (self, w)).1.1 !! k = map self !! k.
Proof.
  intros order Hops Hk. rewrite bprop_unfold. fold order.
  apply Forall_reverse in Hops. apply Forall_reverse in Hk.
  destruct (traversal_effect _ Hops self
              (mkWorld (build :: mode_stack w) (history w)))
    as (g' & t & res & -> & _ & _ & Hframe).
  by apply Hframe.
Qed.

(** [__call__] in full: the outcome of the lookup, and the call of
    [compute()] it records. *)
Lemma call_method_spec item self w :
  __call__ item (self, w) =
    ((self, mkWorld (mode_stack w)
              (history w ++ compute_calls (head (mode_stack w))
                              (__getitem__ item self).2)),
     (__getitem__ item self).2).
Proof.
  destruct (map self !! pyid item) as [rval|] eqn:Hl.
  - rewrite (call_entry _ _ _ _ Hl), (getitem_Some _ _ _ Hl). done.
  - rewrite (call_missing _ _ _ Hl), (getitem_None _ _ Hl). cbn.
    by rewrite app_nil_r, world_eta.
Qed.

(** X15.  [self(item)] returns what [self[item]] returns, the entry or the
    [KeyError], in every mode; it changes neither the accumulator nor the
    mode stack; and it calls [compute()] once, on the entry, when the mode
    is ['build_eval'] and the lookup succeeded, and not at all otherwise. *)
Theorem call_method_is_lookup item self w :
  ∃ w', __call__ item (self, w) = ((self, w'), (__getitem__ item self).2) ∧
    mode_stack w' = mode_stack w ∧
    history w' = history w ++ compute_calls (head (mode_stack w))
                                (__getitem__ item self).2 ∧
    (head (mode_stack w) ≠ Some build_eval → w' = w) ∧
    (map self !! pyid item = None → w' = w).
Proof.
  eexists. split; [apply call_method_spec|]. split; [done|]. split; [done|].
  split.
  - intros Hmode. unfold compute_calls.
    destruct (__getitem__ item self).2; [|by rewrite app_nil_r, world_eta].
    destruct (decide _); [done|]. by rewrite app_nil_r, world_eta.
  - intros Hl. rewrite (getitem_None _ _ Hl). cbn.
    by rewrite app_nil_r, world_eta.
Qed.

End BackpropMore.

(* ===================================================================== *)
(** ** More on [grad] *)
(* ===================================================================== *)

Section GradFunctionMore.
Context {R Raw : Type} `{!ValueLayer R Raw}.
Implicit Types (cost p : R) (self g : Grad R) (w : World R).
Implicit Types (G : gof_graph R) (cost_grad : Raw).

(** The accumulator [Grad({cost: dr})] for an accepted term. *)
Lemma init_single_seed cost dr self :
  passes_shape_rules cost dr = true →
  __init__ [(cost, term dr)] self = (mkGrad {[pyid cost := dr]} [cost], Ok tt).
Proof.
  intros Hs. unfold __init__. cbn [for_each fst snd].
  unfold bind at 1, modify at 1. unfold bind at 1.
  rewrite (add_output_accepted cost (term dr) _ Hs). cbn.
  by rewrite lookup_empty, insert_empty.
Qed.

Lemma not_eval_mode w :
  (on_modes current_mode w).2 ≠ Ok (Some eval) →
  on_modes current_mode w = (w, Ok (head (mode_stack w))) ∧
  head (mode_stack w) ≠ Some eval.
Proof.
  rewrite on_modes_current_mode. cbn. intros Hne. split; [done|]. congruence.
Qed.

(** [grad] once the seed is accepted: the traversal, then the answer. *)
Lemma grad_after_accepted_seed G cost param cost_grad w :
  (on_modes current_mode w).2 ≠ Ok (Some eval) →
  passes_shape_rules cost (wrap cost_grad) = true →
  grad G cost param cost_grad w =
    match bprop G (mkGrad {[pyid cost := wrap cost_grad]} [cost], w) with
    | ((self', w'), Ok _) =>
        match param with
        | None => (w', Ok (returned_Grad self'))
        | Some p =>
            match __call__ p (self', w') with
            | ((_, w''), Ok rval) => (w'', Ok (returned_expr rval))
            | ((_, w''), Raise e) => (w'', Raise e)
            end
        end
    | ((_, w'), Raise e) => (w', Raise e)
    end.
Proof.
  intros [Hmode Hne]%not_eval_mode Hs.
  rewrite (grad_after_seeding _ _ _ _ _ _ _ Hmode Hne
             (init_single_seed _ _ _ Hs)).
  unfold bind at 1, with_object at 1.
  destruct (bprop G _) as [[self' w'] [[]|e]]; [|done].
  cbn [fst]. destruct param as [p|]; [|done].
  unfold bind, with_object.
  by destruct (__call__ p (self', w')) as [[g'' w''] [rval|e]].
Qed.

(** X16.  [grad] leaves the mode stack as it found it on every path: in
    ['eval'] mode, when the seed is refused, when an operation raises
    during the traversal, when the requested gradient is missing, and when
    it returns. *)
Theorem grad_restores_mode G cost param cost_grad w :
  mode_stack (grad G cost param cost_grad w).1 = mode_stack w.
Proof.
  unfold grad. rewrite (bind_Ok _ _ _ _ _ (on_modes_current_mode w)).
  destruct (decide (head (mode_stack w) = Some eval)); [done|].
  unfold bind at 1, with_object at 1, on_fst. cbn [fst snd].
  destruct (__init__ _ blank) as [seeded [[]|e]]; [|done].
  cbn [fst]. unfold bind at 1, with_object at 1.
  pose proof (bprop_mode_stack G seeded w) as Hb.
  destruct (bprop G (seeded, w)) as [[self' w'] [[]|e]]; cbn in Hb; [|done].
  cbn [fst]. destruct param as [p|]; [|done].
  unfold bind, with_object. rewrite call_method_spec.
  by destruct (__getitem__ p self').2.
Qed.

(** X17.  Outside ['eval'] mode, when the cost fails the shape rule against
    [wrap(cost_grad)] (a computed non-scalar cost against a scalar seed, or
    a payload without a shape), [grad] raises the exception of [add] and
    the world is exactly as before: the traversal has not started and no
    gradient method has been called. *)
Theorem grad_refuses_mismatched_seed G cost param cost_grad w :
  (on_modes current_mode w).2 ≠ Ok (Some eval) →
  passes_shape_rules cost (wrap cost_grad) = false →
  ∃ e, grad G cost param cost_grad w = (w, Raise e) ∧
    (e = ValueError "Grad::add r lacks shape: type=" ∨
     e = ValueError "Grad::add dr lacks shape: type=" ∨
     e = NameError "v").
Proof.
  intros [Hmode Hne]%not_eval_mode Hs.
  exists match shape (data cost), shape (data (wrap cost_grad)) with
         | None, _ => ValueError "Grad::add r lacks shape: type="
         | Some _, None => ValueError "Grad::add dr lacks shape: type="
         | Some _, Some _ => NameError "v"
         end.
  split.
  - unfold grad. rewrite (bind_Ok _ _ _ _ _ Hmode).
    destruct (decide (head (mode_stack w) = Some eval)); [done|].
    apply bind_Raise. unfold with_object, on_fst. cbn [fst snd].
    unfold __init__. cbn [for_each fst snd].
    unfold bind at 1, modify at 1. unfold bind at 1, add_output.
    by rewrite (bind_Raise _ _ _ _ _ (add_term_rejected _ _ _ Hs)).
  - destruct (shape (data cost));
      [destruct (shape (data (wrap cost_grad)))|]; auto.
Qed.

(** X18.  Outside ['eval'] mode and with an accepted seed, an exception
    that leaves [bprop] leaves [grad] too, whether or not [param] was
    given: neither the accumulator nor an expression is returned, and
    nothing is looked up or computed after the traversal. *)
Theorem grad_propagates_traversal_exception G cost cost_grad w self' w' e :
  (on_modes current_mode w).2 ≠ Ok (Some eval) →
  passes_shape_rules cost (wrap cost_grad) = true →
  bprop G (mkGrad {[pyid cost := wrap cost_grad]} [cost], w)
    = ((self', w'), Raise e) →
  ∀ param, grad G cost param cost_grad w = (w', Raise e).
Proof.
  intros Hmode Hs Hrun param.
  by rewrite (grad_after_accepted_seed _ _ _ _ _ Hmode Hs), Hrun.
Qed.

(** X19.  The gradient with respect to a cost that no operation produces
    (the traversal is empty): [grad(cost)] returns the accumulator holding
    the seed alone, [grad(cost, cost)] returns [wrap(cost_grad)], calling
    [compute()] on it in ['build_eval'] mode only, and [grad(cost, p)] for
    any node [p] of another identity raises [KeyError] with the world
    unchanged. *)
Theorem grad_of_unproduced_cost G cost cost_grad w :
  io_toposort G (inputs G [cost]) [cost] = [] →
  (on_modes current_mode w).2 ≠ Ok (Some eval) →
  passes_shape_rules cost (wrap cost_grad) = true →
  grad G cost None cost_grad w
    = (w, Ok (returned_Grad (mkGrad {[pyid cost := wrap cost_grad]} [cost]))) ∧
  grad G cost (Some cost) cost_grad w
    = (mkWorld (mode_stack w)
         (history w ++ compute_calls (head (mode_stack w))
                         (Ok (wrap cost_grad))),
       Ok (returned_expr (wrap cost_grad))) ∧
  (∀ p, pyid p ≠ pyid cost →
     grad G cost (Some p) cost_grad w = (w, Raise (KeyError (pyid p)))).
Proof.
  intros Hnil Hmode Hs.
  assert (bprop G (mkGrad {[pyid cost := wrap cost_grad]} [cost], w)
          = ((mkGrad {[pyid cost := wrap cost_grad]} [cost], w), Ok tt))
    as Hrun.
  { rewrite bprop_unfold. cbn [outputs]. rewrite Hnil. cbn.
    by rewrite world_eta. }
  split; [|split].
  - by rewrite (grad_after_accepted_seed _ _ _ _ _ Hmode Hs), Hrun.
  - rewrite (grad_after_accepted_seed _ _ _ _ _ Hmode Hs), Hrun.
    rewrite call_method_spec.
    assert (__getitem__ cost (mkGrad {[pyid cost := wrap cost_grad]} [cost])
            = (mkGrad {[pyid cost := wrap cost_grad]} [cost],
               Ok (wrap cost_grad))) as ->.
    { apply getitem_Some. cbn. apply lookup_singleton_eq. }
    done.
  - intros p Hp.
    rewrite (grad_after_accepted_seed _ _ _ _ _ Hmode Hs), Hrun.
    rewrite call_missing; [done|]. cbn. by apply lookup_singleton_ne.
Qed.

(** X20.  The gradient with respect to a node that is not the cost and that
    no operation of the traversal consumes is missing: with operations
    that deposit into their own inputs only and a traversal that runs to
    its end, [grad(cost, p)] raises [KeyError] for such a [p], and nothing
    is computed. *)
Theorem grad_of_disconnected_node G cost p cost_grad w :
  let seeded := mkGrad {[pyid cost := wrap cost_grad]} [cost] in
  let order := io_toposort G (inputs G [cost]) [cost] in
  (on_modes current_mode w).2 ≠ Ok (Some eval) →
  passes_shape_rules cost (wrap cost_grad) = true →
  Forall contributes_to_inputs order →
  Forall (λ op, pyid p ∉ pyid <$> op_inputs op) order →
  pyid p ≠ pyid cost →
  (bprop G (seeded, w)).2 = Ok tt →
  grad G cost (Some p) cost_grad w
  = ((bprop G (seeded, w)).1.2, Raise (KeyError (pyid p))).
Proof.
  intros seeded order Hmode Hs Hops Hp Hne Hok. subst seeded order.
  rewrite (grad_after_accepted_seed _ _ _ _ _ Hmode Hs).
  assert (map (bprop G (mkGrad {[pyid cost := wrap cost_grad]} [cost], w)).1.1
            !! pyid p = None) as Hentry.
  { rewrite bprop_unfold. cbn [outputs].
    apply Forall_reverse in Hops. apply Forall_reverse in Hp.
    destruct (traversal_effect _ Hops
                (mkGrad {[pyid cost := wrap cost_grad]} [cost])
                (mkWorld (build :: mode_stack w) (history w)))
      as (g' & t & res & Hrun & _ & _ & Hframe).
    cbn [outputs] in Hrun. rewrite Hrun.
    cbn [fst]. rewrite (Hframe _ Hp). cbn. by apply lookup_singleton_ne. }
  destruct (bprop G _) as [[self' w'] [[]|e]]; [|done].
  cbn [fst snd] in *. by rewrite (call_missing _ _ _ Hentry).
Qed.

End GradFunctionMore.

(* ===================================================================== *)
(** ** The further properties on concrete accumulators and graphs *)
(* ===================================================================== *)

Lemma add_failure_leaves_accumulator_witness :
  add leaf_cost.raw_object (term leaf_cost.c) diamond.seeded
    = (diamond.seeded, Raise (ValueError "Grad::add r lacks shape: type=")) ∧
  diamond.seeded = diamond.seeded ∧
  (ValueError "Grad::add r lacks shape: type="
     = ValueError "Grad::add r lacks shape: type=" ∨
   ValueError "Grad::add r lacks shape: type="
     = ValueError "Grad::add dr lacks shape: type=" ∨
   ValueError "Grad::add r lacks shape: type=" = NameError "v").
Proof.
  split; [reflexivity|].
  apply (add_failure_leaves_accumulator leaf_cost.raw_object
           (term leaf_cost.c) diamond.seeded diamond.seeded
           (ValueError "Grad::add r lacks shape: type=")).
  reflexivity.
Defined.


Lemma add_output_registers_only_accepted_witness :
  (∃ self', add_output leaf_cost.c (term leaf_cost.other) (@blank expr)
            = (self', Ok tt) ∧
     outputs self' = outputs (@blank expr) ++ [leaf_cost.c] ∧
     is_Some (map self' !! pyid leaf_cost.c)) ∧
  (∃ e, add_output leaf_cost.matrix (term leaf_cost.c) (@blank expr)
        = (blank, Raise e)).
Proof.
  split.
  - apply (proj1 (add_output_registers_only_accepted leaf_cost.c
                    leaf_cost.other blank)). reflexivity.
  - apply (proj2 (add_output_registers_only_accepted leaf_cost.matrix
                    leaf_cost.c blank)). reflexivity.
Defined.

Lemma add_output_twice_sums_witness :
  (add_output leaf_cost.c (term (leaf 20 (ndarray []) 1)) ;;
   add_output leaf_cost.c (term leaf_cost.other)) diamond.seeded
  = (mkGrad (<[pyid leaf_cost.c := radd (leaf 20 (ndarray []) 1) leaf_cost.other]>
               (map diamond.seeded))
       (outputs diamond.seeded ++ [leaf_cost.c; leaf_cost.c]), Ok tt).
Proof.
  apply (add_output_twice_sums leaf_cost.c (leaf 20 (ndarray []) 1)
           leaf_cost.other diamond.seeded); reflexivity.
Defined.

Lemma init_seeds_every_item_witness :
  let dct := [(leaf_cost.c, term leaf_cost.other);
              (leaf_cost.matrix, UNDEFINED)] in
  ∃ self',
    __init__ dct diamond.seeded = (self', Ok tt) ∧
    outputs self' = dct.*1 ∧
    (∀ k, k ∉ pyid <$> dct.*1 → map self' !! k = None) ∧
    (NoDup (pyid <$> dct.*1) →
     ∀ r d, (r, d) ∈ dct → map self' !! pyid r = seed_entry d).
Proof.
  apply (init_seeds_every_item
           [(leaf_cost.c, term leaf_cost.other); (leaf_cost.matrix, UNDEFINED)]
           diamond.seeded).
  repeat constructor.
Defined.

Lemma init_stops_at_refused_item_witness :
  let dct1 := [(leaf_cost.c, term leaf_cost.other)] in
  ∃ self' e,
    __init__ (dct1 ++ (leaf_cost.matrix, term leaf_cost.c)
                       :: [(leaf_cost.other, UNDEFINED)]) diamond.seeded
      = (self', Raise e) ∧
    (e = ValueError "Grad::add r lacks shape: type=" ∨
     e = ValueError "Grad::add dr lacks shape: type=" ∨
     e = NameError "v") ∧
    __init__ dct1 diamond.seeded = (self', Ok tt) ∧
    outputs self' = dct1.*1 ∧
    (∀ r0 dr0, (r0, term dr0) ∈ dct1 → is_Some (map self' !! pyid r0)) ∧
    (NoDup (pyid <$> dct1.*1) →
     ∀ r0 d0, (r0, d0) ∈ dct1 → map self' !! pyid r0 = seed_entry d0) ∧
    (∀ k, k ∉ pyid <$> dct1.*1 → map self' !! k = None).
Proof.
  apply (init_stops_at_refused_item [(leaf_cost.c, term leaf_cost.other)]
           leaf_cost.matrix leaf_cost.c [(leaf_cost.other, UNDEFINED)]
           diamond.seeded).
  - repeat constructor.
  - reflexivity.
Defined.

Lemma bprop_without_operations_witness :
  bprop leaf_cost.G (diamond.seeded, diamond.w_build_eval)
  = ((diamond.seeded, diamond.w_build_eval), Ok tt).
Proof.
  apply (bprop_without_operations leaf_cost.G diamond.seeded
           diamond.w_build_eval).
  reflexivity.
Defined.

Lemma bprop_leaves_unconsumed_nodes_witness :
  map (bprop diamond.G (diamond.seeded, diamond.w_build)).1.1 !! pyid diamond.y
  = map diamond.seeded !! pyid diamond.y.
Proof.
  apply (bprop_leaves_unconsumed_nodes diamond.G diamond.seeded
           diamond.w_build (pyid diamond.y)).
  - eapply Forall_impl; [apply diamond_contributes|]. by intros ? [? ?].
  - eapply Forall_impl; [apply diamond_contributes|]. by intros ? [? ?].
Defined.

Lemma grad_refuses_mismatched_seed_witness :
  ∃ e, grad leaf_cost.G leaf_cost.matrix None default_cost_grad
         diamond.w_build = (diamond.w_build, Raise e) ∧
    (e = ValueError "Grad::add r lacks shape: type=" ∨
     e = ValueError "Grad::add dr lacks shape: type=" ∨
     e = NameError "v").
Proof.
  apply (grad_refuses_mismatched_seed leaf_cost.G leaf_cost.matrix None
           default_cost_grad diamond.w_build).
  - discriminate.
  - reflexivity.
Defined.

Lemma grad_propagates_traversal_exception_witness :
  grad diamond.G_raising diamond.y (Some diamond.x) default_cost_grad
    diamond.w_build
  = ((bprop diamond.G_raising (diamond.seeded, diamond.w_build)).1.2,
     Raise (OpException 0)).
Proof.
  apply (grad_propagates_traversal_exception diamond.G_raising diamond.y
           default_cost_grad diamond.w_build
           (bprop diamond.G_raising (diamond.seeded, diamond.w_build)).1.1
           (bprop diamond.G_raising (diamond.seeded, diamond.w_build)).1.2
           (OpException 0)).
  - discriminate.
  - reflexivity.
  - vm_compute. reflexivity.
Defined.

Lemma grad_of_unproduced_cost_witness :
  let w := diamond.w_build_eval in
  grad leaf_cost.G leaf_cost.c None default_cost_grad w
    = (w, Ok (returned_Grad
                (mkGrad {[pyid leaf_cost.c := wrap default_cost_grad]}
                   [leaf_cost.c]))) ∧
  grad leaf_cost.G leaf_cost.c (Some leaf_cost.c) default_cost_grad w
    = (mkWorld (mode_stack w)
         (history w ++ compute_calls (head (mode_stack w))
                         (Ok (wrap default_cost_grad))),
       Ok (returned_expr (wrap default_cost_grad))) ∧
  (∀ p, pyid p ≠ pyid leaf_cost.c →
     grad leaf_cost.G leaf_cost.c (Some p) default_cost_grad w
     = (w, Raise (KeyError (pyid p)))).
Proof.
  apply (grad_of_unproduced_cost leaf_cost.G leaf_cost.c default_cost_grad
           diamond.w_build_eval).
  - reflexivity.
  - discriminate.
  - reflexivity.
Defined.

Lemma grad_of_disconnected_node_witness :
  grad diamond.G diamond.y (Some leaf_cost.other) default_cost_grad
    diamond.w_build
  = ((bprop diamond.G (diamond.seeded, diamond.w_build)).1.2,
     Raise (KeyError (pyid leaf_cost.other))).
Proof.
  apply (grad_of_disconnected_node diamond.G diamond.y leaf_cost.other
           default_cost_grad diamond.w_build).
  - discriminate.
  - reflexivity.
  - eapply Forall_impl; [apply diamond_contributes|]. by intros ? [? ?].
  - repeat (apply List.Forall_cons; [compute_done|]). apply List.Forall_nil.
  - discriminate.
  - vm_compute. reflexivity.
Defined.
